(** * GrAAConvexPathRenderer: anti-aliased convex path tessellation

    A shallow embedding of [src/gpu/GrAAConvexPathRenderer.cpp] and the
    properties of its path decoder, degeneracy classifier, centroid estimator,
    normal solver, mesh builder and draw entry point.

    The scalar layer ([SkScalar]/[GrScalar]), the point helpers implemented
    out of line, the path iterator, the curve flattener, the matrix type and
    the draw target live in other files of the repository.  They enter the
    development as the operations of two interfaces, [Scalar] and
    [Externals]; the renderer itself is translated function by function on
    top of them.  Module [F32] and the instances built on it give the
    single-precision configuration of the scalar layer, on which concrete
    scenarios are evaluated. *)

From Stdlib Require Import ZArith QArith Floats.SpecFloat.
From stdpp Require Import base option list.

(** ** The scalar interface *)

(** What the renderer uses of [SkScalar]: the four arithmetic operations,
    negation, [SkScalarAbs], the strict order, the conversion from [int],
    [SkScalarIsNaN] and three constants.  [x > y] is [slt y x]. *)
Class Scalar := {
  scalar : Type;
  szero : scalar;
  SK_Scalar1 : scalar;
  SK_ScalarNearlyZero : scalar;
  GR_ScalarMax : scalar;
  sadd : scalar -> scalar -> scalar;
  ssub : scalar -> scalar -> scalar;
  smul : scalar -> scalar -> scalar;
  sdiv : scalar -> scalar -> scalar;
  sneg : scalar -> scalar;
  SkScalarAbs : scalar -> scalar;
  slt : scalar -> scalar -> bool;
  sofint : Z -> scalar;
  SkScalarIsNaN : scalar -> bool
}.

Declare Scope scalar_scope.
Delimit Scope scalar_scope with sc.
Infix "+" := sadd : scalar_scope.
Infix "-" := ssub : scalar_scope.
Infix "*" := smul : scalar_scope.
Infix "/" := sdiv : scalar_scope.
Notation "- x" := (sneg x) : scalar_scope.
Notation "x <? y" := (slt x y) : scalar_scope.
Notation "x >? y" := (slt y x) : scalar_scope.

(** The one algebraic fact about scalars that the winding argument needs.
    It holds for IEEE negation (a sign flip) and for two's complement. *)
Class ScalarNeg (Sc : Scalar) : Prop :=
  sneg_involutive : forall x : scalar, (- (- x))%sc = x.

(** ** Points and vectors *)

Section Points.
Context {Sc : Scalar}.

Record GrPoint := mkPoint { fX : scalar; fY : scalar }.
Definition GrVec := GrPoint.

Inductive Side := kLeft_Side | kRight_Side.

(** [a - b] and [a + b] on points. *)
Definition pt_sub (a b : GrPoint) : GrVec :=
  mkPoint (fX a - fX b)%sc (fY a - fY b)%sc.
Definition pt_add (a b : GrPoint) : GrPoint :=
  mkPoint (fX a + fX b)%sc (fY a + fY b)%sc.
Definition pt_neg (a : GrVec) : GrVec := mkPoint (- fX a)%sc (- fY a)%sc.

Definition dot (a b : GrVec) : scalar :=
  (fX a * fX b + fY a * fY b)%sc.

Definition distanceToSqd (p q : GrPoint) : scalar :=
  let dx := (fX p - fX q)%sc in
  let dy := (fY p - fY q)%sc in
  (dx * dx + dy * dy)%sc.

(** [setOrthog(vec, side)]: the right side is [(-y, x)], the left side,
    which is also the default argument, is [(y, -x)]. *)
Definition setOrthog (vec : GrVec) (side : Side) : GrVec :=
  match side with
  | kRight_Side => mkPoint (- fY vec)%sc (fX vec)
  | kLeft_Side => mkPoint (fY vec) (- fX vec)%sc
  end.

Definition scale (p : GrPoint) (s : scalar) : GrPoint :=
  mkPoint (fX p * s)%sc (fY p * s)%sc.

(** ** The path as the renderer sees it *)

(** One item of [SkPath::Iter]: the verb with the points it fills into
    [pts].  The iterator answers [kEnd_PathCmd] once the list is
    exhausted. *)
Inductive PathItem :=
| kMove_PathCmd (p0 : GrPoint)
| kLine_PathCmd (p0 p1 : GrPoint)
| kQuadratic_PathCmd (p0 p1 p2 : GrPoint)
| kCubic_PathCmd (p0 p1 p2 p3 : GrPoint)
| kClose_PathCmd.

Inductive Direction := kCW_Direction | kCCW_Direction.

(** The queries [drawPath] and [get_segments] make on a path: the items of
    a force-closed iteration, emptiness, convexity, and the direction that
    [cheapComputeDirection] stores. *)
Record SkPath := mkPath {
  iter : list PathItem;
  isEmpty : bool;
  isConvex : bool;
  cheapComputeDirection : Direction
}.

Inductive GrPathFill :=
| kWinding_PathFill
| kEvenOdd_PathFill
| kInverseWinding_PathFill
| kInverseEvenOdd_PathFill
| kHairLine_PathFill.

Definition GrPathFill_eqb (a b : GrPathFill) : bool :=
  match a, b with
  | kWinding_PathFill, kWinding_PathFill
  | kEvenOdd_PathFill, kEvenOdd_PathFill
  | kInverseWinding_PathFill, kInverseWinding_PathFill
  | kInverseEvenOdd_PathFill, kInverseEvenOdd_PathFill
  | kHairLine_PathFill, kHairLine_PathFill => true
  | _, _ => false
  end.
End Points.

Arguments GrPoint : clear implicits.
Arguments GrPoint {Sc}.

(** ** Collaborators outside this file *)

(** The out-of-line point helpers, the curve flattener, the UV mapping of a
    quadratic, the matrix type with the path transform, the layout bits and
    the fill-rule table.  [indeterminate] stands for the contents of storage
    that has been allocated and not yet written. *)
Class Externals (Sc : Scalar) := {
  normalize : GrVec -> GrVec;
  distanceToLineBetween : GrPoint -> GrPoint -> GrPoint -> scalar;
  convertCubicToQuads :
    GrPoint -> GrPoint -> GrPoint -> GrPoint -> scalar -> list GrPoint;
  quadDesignSpaceToUVCoords :
    GrPoint -> GrPoint -> GrPoint -> GrPoint -> GrPoint;
  indeterminate : GrPoint;
  GrMatrix : Type;
  GrMatrix_I : GrMatrix;
  postTranslate : GrMatrix -> scalar -> scalar -> GrMatrix;
  invert : GrMatrix -> option GrMatrix;
  transform : GrMatrix -> SkPath -> SkPath;
  kNumStages : nat;
  StagePosAsTexCoordVertexLayoutBit : nat -> Z;
  kEdge_VertexLayoutBit : Z;
  GrIsFillInverted : GrPathFill -> bool
}.

(** ** Segments *)

Section Renderer.
Context {Sc : Scalar} {Ext : Externals Sc}.

Inductive SegmentType := Segment_kLine | Segment_kQuad.

#[global] Instance SegmentType_eq_dec : EqDecision SegmentType.
Proof. solve_decision. Defined.

(** The two-element arrays [fPts] and [fNorms] are pairs read and written
    through an index. *)
Definition arr2 (A : Type) : Type := (A * A)%type.
Definition arr2_get {A} (x : arr2 A) (p : nat) : A :=
  match p with 0 => fst x | _ => snd x end.
Definition arr2_set {A} (x : arr2 A) (p : nat) (v : A) : arr2 A :=
  match p with 0 => (v, snd x) | _ => (fst x, v) end.

Record Segment := mkSegment {
  fType : SegmentType;
  fPts : arr2 GrPoint;
  fNorms : arr2 GrVec;
  fMid : GrVec
}.

Definition countPoints (s : Segment) : nat :=
  match fType s with Segment_kLine => 1 | Segment_kQuad => 2 end.
Definition endPt (s : Segment) : GrPoint :=
  match fType s with
  | Segment_kLine => arr2_get (fPts s) 0
  | Segment_kQuad => arr2_get (fPts s) 1
  end.
Definition endNorm (s : Segment) : GrVec :=
  match fType s with
  | Segment_kLine => arr2_get (fNorms s) 0
  | Segment_kQuad => arr2_get (fNorms s) 1
  end.

Abbreviation SegmentArray := (list Segment).

(** [push_back()] appends a segment whose fields are not yet written. *)
Definition Segment_fresh : Segment :=
  mkSegment Segment_kLine (indeterminate, indeterminate)
            (indeterminate, indeterminate) indeterminate.

(** [segments[i]]; every read of the renderer is in range. *)
Definition seg_at (segments : SegmentArray) (i : nat) : Segment :=
  default Segment_fresh (segments !! i).

Definition set_fNorms (s : Segment) (n : arr2 GrVec) : Segment :=
  mkSegment (fType s) (fPts s) n (fMid s).
Definition set_fMid (s : Segment) (m : GrVec) : Segment :=
  mkSegment (fType s) (fPts s) (fNorms s) m.

(** ** center_of_mass (lines 58-93) *)

(** The first loop: [area] and [center] after the iterations [i], ...,
    [i + n - 1]. *)
Fixpoint center_of_mass_sum (segments : SegmentArray) (n i : nat)
    (area : scalar) (center : GrPoint) : scalar * GrPoint :=
  match n with
  | 0 => (area, center)
  | S n' =>
      let count := length segments in
      let pi := endPt (seg_at segments i) in
      let j := (i + 1) `mod` count in
      let pj := endPt (seg_at segments j) in
      let t := (fX pi * fY pj - fX pj * fY pi)%sc in
      let area := (area + t)%sc in
      let center :=
        mkPoint (fX center + (fX pi + fX pj) * t)%sc
                (fY center + (fY pi + fY pj) * t)%sc in
      center_of_mass_sum segments n' (i + 1) area center
  end.

(** The second loop, taken when the polygon has no area. *)
Fixpoint center_of_mass_avg (segments : SegmentArray) (n i : nat)
    (avg : GrPoint) : GrPoint :=
  match n with
  | 0 => avg
  | S n' =>
      let pt := endPt (seg_at segments i) in
      let avg := mkPoint (fX avg + fX pt)%sc (fY avg + fY pt)%sc in
      center_of_mass_avg segments n' (i + 1) avg
  end.

Definition center_of_mass (segments : SegmentArray) : GrPoint :=
  let count := length segments in
  let '(area, center) :=
    center_of_mass_sum segments count 0 szero (mkPoint szero szero) in
  if (SkScalarAbs area <? SK_ScalarNearlyZero)%sc then
    let avg := center_of_mass_avg segments count 0 (mkPoint szero szero) in
    let denom := (SK_Scalar1 / sofint (Z.of_nat count))%sc in
    scale avg denom
  else
    let area := (area * sofint 3)%sc in
    let area := (SK_Scalar1 / area)%sc in
    mkPoint (fX center * area)%sc (fY center * area)%sc.

(** The assertion that closes [center_of_mass]. *)
Definition center_is_a_number (c : GrPoint) : bool :=
  negb (SkScalarIsNaN (fX c)) && negb (SkScalarIsNaN (fY c)).

(** ** compute_vectors (lines 95-148)

    The counters [vCount] and [iCount], like the loop indices and the write
    cursors further down, are [int] in the source and natural numbers here:
    they never decrease, and they stay far below the range of [int] for any
    array that fits in memory. *)

Definition normSide_of (dir : Direction) : Side :=
  match dir with
  | kCCW_Direction => kRight_Side
  | kCW_Direction => kLeft_Side
  end.

(** The inner loop over the points of [segb]: iterations [p], ...,
    [p + n - 1], threading [prevPt]. *)
Fixpoint point_normals (normSide : Side) (n p : nat) (prevPt : GrPoint)
    (segb : Segment) : Segment :=
  match n with
  | 0 => segb
  | S n' =>
      let d := pt_sub (arr2_get (fPts segb) p) prevPt in
      let d := normalize d in
      let d := setOrthog d normSide in
      let segb := set_fNorms segb (arr2_set (fNorms segb) p d) in
      point_normals normSide n' (p + 1) (arr2_get (fPts segb) p) segb
  end.

Definition edge_vertices (t : SegmentType) : nat :=
  match t with Segment_kLine => 5 | Segment_kQuad => 6 end.
Definition edge_indices (t : SegmentType) : nat :=
  match t with Segment_kLine => 9 | Segment_kQuad => 12 end.

(** The loop that computes the normals at all points. *)
Fixpoint normals_loop (normSide : Side) (n a : nat)
    (segments : SegmentArray) (vCount iCount : nat)
    : SegmentArray * nat * nat :=
  match n with
  | 0 => (segments, vCount, iCount)
  | S n' =>
      let count := length segments in
      let sega := seg_at segments a in
      let b := (a + 1) `mod` count in
      let segb := seg_at segments b in
      let segb' :=
        point_normals normSide (countPoints segb) 0 (endPt sega) segb in
      let segments := <[b := segb']> segments in
      normals_loop normSide n' (a + 1) segments
                   (vCount + edge_vertices (fType segb'))
                   (iCount + edge_indices (fType segb'))
  end.

(** The loop that computes the mid-vectors where segments meet. *)
Fixpoint mids_loop (n a : nat) (segments : SegmentArray)
    (vCount iCount : nat) : SegmentArray * nat * nat :=
  match n with
  | 0 => (segments, vCount, iCount)
  | S n' =>
      let count := length segments in
      let sega := seg_at segments a in
      let b := (a + 1) `mod` count in
      let segb := seg_at segments b in
      let mid := normalize (pt_add (arr2_get (fNorms segb) 0) (endNorm sega)) in
      let segments := <[b := set_fMid segb mid]> segments in
      mids_loop n' (a + 1) segments (vCount + 4) (iCount + 6)
  end.

Record Vectors := mkVectors {
  vec_segments : SegmentArray;
  vec_fanPt : GrPoint;
  vec_vCount : nat;
  vec_iCount : nat
}.

Definition compute_vectors (segments : SegmentArray) (dir : Direction)
    : Vectors :=
  let fanPt := center_of_mass segments in
  let count := length segments in
  let normSide := normSide_of dir in
  let '(segments, vCount, iCount) :=
    normals_loop normSide count 0 segments 0 0 in
  let '(segments, vCount, iCount) :=
    mids_loop count 0 segments vCount iCount in
  mkVectors segments fanPt vCount iCount.

(** ** The degeneracy classifier (lines 150-191) *)

Inductive Stage := kInitial | kPoint | kLine | kNonDegenerate.

Record DegenerateTestData := mkDegenerateTestData {
  fStage : Stage;
  fFirstPoint : GrPoint;
  fLineNormal : GrVec;
  fLineC : scalar
}.

(** The constructor sets the stage only. *)
Definition DegenerateTestData_new : DegenerateTestData :=
  mkDegenerateTestData kInitial indeterminate indeterminate
                       (fX indeterminate).

Definition isDegenerate (data : DegenerateTestData) : bool :=
  match fStage data with kNonDegenerate => false | _ => true end.

Definition TOL : scalar := (SK_Scalar1 / sofint 16)%sc.
Definition TOL_SQD : scalar := (TOL * TOL)%sc.

Definition update_degenerate_test (data : DegenerateTestData)
    (pt : GrPoint) : DegenerateTestData :=
  match fStage data with
  | kInitial =>
      mkDegenerateTestData kPoint pt (fLineNormal data) (fLineC data)
  | kPoint =>
      if (distanceToSqd pt (fFirstPoint data) >? TOL_SQD)%sc then
        let n := pt_sub pt (fFirstPoint data) in
        let n := normalize n in
        let n := setOrthog n kLeft_Side in
        let c := (- dot n (fFirstPoint data))%sc in
        mkDegenerateTestData kLine (fFirstPoint data) n c
      else data
  | kLine =>
      if (SkScalarAbs (dot (fLineNormal data) pt + fLineC data) >? TOL)%sc
      then mkDegenerateTestData kNonDegenerate (fFirstPoint data)
                                (fLineNormal data) (fLineC data)
      else data
  | kNonDegenerate => data
  end.

(** ** get_segments (lines 193-260) *)

(** The calls [get_segments] makes while it decodes, in program order. *)
Inductive DecodeCall :=
| Call_update_degenerate_test (pt : GrPoint)
| Call_convertCubicToQuads (p0 p1 p2 p3 : GrPoint).

Record Decoder := mkDecoder {
  degenerateData : DegenerateTestData;
  segments_of : list Segment;
  calls_of : list DecodeCall
}.

Definition feed (d : Decoder) (pt : GrPoint) : Decoder :=
  mkDecoder (update_degenerate_test (degenerateData d) pt)
            (segments_of d)
            (calls_of d ++ [Call_update_degenerate_test pt]).

(** [push_back(); back().fType = kLine; back().fPts[0] = p]. *)
Definition line_segment (p : GrPoint) : Segment :=
  mkSegment Segment_kLine (arr2_set (fPts Segment_fresh) 0 p)
            (fNorms Segment_fresh) (fMid Segment_fresh).

(** [push_back(); back().fType = kQuad; back().fPts[0] = p;
    back().fPts[1] = q]. *)
Definition quad_segment (p q : GrPoint) : Segment :=
  mkSegment Segment_kQuad (arr2_set (arr2_set (fPts Segment_fresh) 0 p) 1 q)
            (fNorms Segment_fresh) (fMid Segment_fresh).

Definition push_line (d : Decoder) (p : GrPoint) : Decoder :=
  mkDecoder (degenerateData d) (segments_of d ++ [line_segment p])
            (calls_of d).

Definition push_quad (d : Decoder) (p q : GrPoint) : Decoder :=
  mkDecoder (degenerateData d) (segments_of d ++ [quad_segment p q])
            (calls_of d).

(** [quads[k]] of the flattener's output. *)
Definition quad_at (quads : list GrPoint) (k : nat) : GrPoint :=
  default indeterminate (quads !! k).

(** [for (q = 0; q < count; q += 3)]: at most [n] further iterations
    starting at [q]. *)
Fixpoint push_quads (n q : nat) (quads : list GrPoint) (d : Decoder)
    : Decoder :=
  match n with
  | 0 => d
  | S n' =>
      if decide (q < length quads) then
        push_quads n' (q + 3) quads
                   (push_quad d (quad_at quads (q + 1))
                                (quad_at quads (q + 2)))
      else d
  end.

Definition flatten (d : Decoder) (p0 p1 p2 p3 : GrPoint) : Decoder :=
  let quads := convertCubicToQuads p0 p1 p2 p3 SK_Scalar1 in
  push_quads (length quads) 0 quads
    (mkDecoder (degenerateData d) (segments_of d)
               (calls_of d ++ [Call_convertCubicToQuads p0 p1 p2 p3])).

(** One turn of the [for (;;)] loop on an item other than the end. *)
Definition decode_item (d : Decoder) (item : PathItem) : Decoder :=
  match item with
  | kMove_PathCmd p0 => feed d p0
  | kLine_PathCmd _ p1 => push_line (feed d p1) p1
  | kQuadratic_PathCmd _ p1 p2 => push_quad (feed (feed d p1) p2) p1 p2
  | kCubic_PathCmd p0 p1 p2 p3 =>
      flatten (feed (feed (feed d p1) p2) p3) p0 p1 p2 p3
  | kClose_PathCmd => d
  end.

(** The loop up to the moment the iterator answers [kEnd_PathCmd]. *)
Fixpoint decode (items : list PathItem) (d : Decoder) : Decoder :=
  match items with
  | [] => d
  | item :: items' => decode items' (decode_item d item)
  end.

Definition Decoder_new (segments : list Segment) : Decoder :=
  mkDecoder DegenerateTestData_new segments [].

(** [get_segments] called on an empty [segments] array; [None] is the
    answer [false], which leaves the fan point and the counts unwritten.
    The direction is the one [cheapComputeDirection] stores; the source
    asserts that this call succeeds. *)
Definition get_segments (path : SkPath) : option Vectors :=
  let d := decode (iter path) (Decoder_new []) in
  if isDegenerate (degenerateData d) then None
  else Some (compute_vectors (segments_of d) (cheapComputeDirection path)).

(** ** create_vertices (lines 262-399) *)

Record QuadVertex := mkQuadVertex {
  fPos : GrPoint;
  fUV : GrPoint;
  fD0 : scalar;
  fD1 : scalar
}.

(** A reserved region: the cells that were handed out, each unwritten
    ([None]) or holding a value, and the positions stored to so far, in
    order.  The source fills a vertex field by field; each field of each
    vertex of a group is assigned once, so a vertex is stored here as one
    record, with the fields it ends up with. *)
Record Region (A : Type) := mkRegion {
  cells : list (option A);
  stores : list nat
}.
#[global] Arguments mkRegion {A}.
#[global] Arguments cells {A}.
#[global] Arguments stores {A}.

Definition reserved {A} (n : nat) : Region A :=
  mkRegion (replicate n None) [].

(** [region[k] = x]; a store outside the region has no defined outcome. *)
Definition store {A} (r : Region A) (k : nat) (x : A) : option (Region A) :=
  if decide (k < length (cells r)) then
    Some (mkRegion (<[k := Some x]> (cells r)) (stores r ++ [k]))
  else None.

(** [region[k + 0] = x0; region[k + 1] = x1; ...] *)
Fixpoint store_from {A} (r : Region A) (k : nat) (xs : list A)
    : option (Region A) :=
  match xs with
  | [] => Some r
  | x :: xs' => r' ← store r k x; store_from r' (k + 1) xs'
  end.

(** The conversion of an [int] to [uint16_t]. *)
Definition to_uint16 (n : nat) : nat := n `mod` 2 ^ 16.

Record Cursor := mkCursor {
  verts : Region QuadVertex;
  idxs : Region nat;
  cur_v : nat;
  cur_i : nat
}.

Definition sentinel_uv : GrPoint := mkPoint szero (- SK_Scalar1)%sc.

(** The four vertices of the wedge at the corner between [sega] and
    [segb]. *)
Definition corner_vertices (sega segb : Segment) : list QuadVertex :=
  let p0 := endPt sega in
  let m1 := (- SK_Scalar1)%sc in
  [ mkQuadVertex p0 (mkPoint szero szero) m1 m1;
    mkQuadVertex (pt_add p0 (endNorm sega)) sentinel_uv m1 m1;
    mkQuadVertex (pt_add p0 (fMid segb)) sentinel_uv m1 m1;
    mkQuadVertex (pt_add p0 (arr2_get (fNorms segb) 0)) sentinel_uv m1 m1 ].

Definition corner_indices (v : nat) : list nat :=
  map to_uint16 [v + 0; v + 2; v + 1; v + 0; v + 3; v + 2].

(** The five vertices of a line edge. *)
Definition line_vertices (sega segb : Segment) (fanPt : GrPoint)
    : list QuadVertex :=
  let p1 := endPt sega in
  let p2 := arr2_get (fPts segb) 0 in
  let n0 := arr2_get (fNorms segb) 0 in
  let dist := distanceToLineBetween fanPt p1 p2 in
  let m1 := (- SK_Scalar1)%sc in
  [ mkQuadVertex fanPt (mkPoint szero dist) m1 m1;
    mkQuadVertex p1 (mkPoint szero szero) m1 m1;
    mkQuadVertex p2 (mkPoint szero szero) m1 m1;
    mkQuadVertex (pt_add p1 n0) sentinel_uv m1 m1;
    mkQuadVertex (pt_add p2 n0) sentinel_uv m1 m1 ].

Definition line_indices (v : nat) : list nat :=
  map to_uint16 [v + 0; v + 2; v + 1;
                 v + 3; v + 1; v + 2;
                 v + 4; v + 3; v + 2].

(** The six vertices of a quadratic edge; [fUV] is the image of [fPos]
    under the matrix of the control polygon. *)
Definition quad_vertices (sega segb : Segment) (fanPt : GrPoint)
    : list QuadVertex :=
  let q0 := endPt sega in
  let q1 := arr2_get (fPts segb) 0 in
  let q2 := arr2_get (fPts segb) 1 in
  let n0 := arr2_get (fNorms segb) 0 in
  let n1 := arr2_get (fNorms segb) 1 in
  let midVec := normalize (pt_add n0 n1) in
  let far := (- GR_ScalarMax / sofint 100)%sc in
  let c0 := dot n0 q0 in
  let c1 := dot n1 q2 in
  let toUV := quadDesignSpaceToUVCoords q0 q1 q2 in
  let vertex pos d0 d1 := mkQuadVertex pos (toUV pos) d0 d1 in
  [ vertex fanPt (- dot n0 fanPt + c0)%sc (- dot n1 fanPt + c1)%sc;
    vertex q0 szero (- dot n1 q0 + c1)%sc;
    vertex q2 (- dot n0 q2 + c0)%sc szero;
    vertex (pt_add q0 n0) far far;
    vertex (pt_add q2 n1) far far;
    vertex (pt_add q1 midVec) far far ].

Definition quad_indices (v : nat) : list nat :=
  map to_uint16 [v + 3; v + 1; v + 2;
                 v + 4; v + 3; v + 2;
                 v + 5; v + 3; v + 4;
                 v + 0; v + 2; v + 1].

(** Stores a group of vertices and its indices at the cursors and
    advances them: [v += |vs|; i += |ixs|]. *)
Definition emit (c : Cursor) (vs : list QuadVertex) (ixs : list nat)
    : option Cursor :=
  verts' ← store_from (verts c) (cur_v c) vs;
  idxs' ← store_from (idxs c) (cur_i c) ixs;
  Some (mkCursor verts' idxs' (cur_v c + length vs) (cur_i c + length ixs)).

(** The body of the loop for the index [a]. *)
Definition create_step (segments : list Segment) (fanPt : GrPoint)
    (a : nat) (c : Cursor) : option Cursor :=
  let count := length segments in
  let sega := seg_at segments a in
  let b := (a + 1) `mod` count in
  let segb := seg_at segments b in
  c ← emit c (corner_vertices sega segb) (corner_indices (cur_v c));
  match fType segb with
  | Segment_kLine =>
      emit c (line_vertices sega segb fanPt) (line_indices (cur_v c))
  | Segment_kQuad =>
      emit c (quad_vertices sega segb fanPt) (quad_indices (cur_v c))
  end.

Fixpoint create_loop (n a : nat) (segments : list Segment)
    (fanPt : GrPoint) (c : Cursor) : option Cursor :=
  match n with
  | 0 => Some c
  | S n' =>
      c' ← create_step segments fanPt a c;
      create_loop n' (a + 1) segments fanPt c'
  end.

Definition create_vertices (segments : list Segment) (fanPt : GrPoint)
    (verts : Region QuadVertex) (idxs : Region nat) : option Cursor :=
  create_loop (length segments) 0 segments fanPt (mkCursor verts idxs 0 0).

(** ** The renderer object (lines 21-28 and 403-460) *)

Record Caps := mkCaps { fShaderDerivativeSupport : bool }.

Definition canDrawPath (targetCaps : Caps) (path : SkPath)
    (fill : GrPathFill) (antiAlias : bool) : bool :=
  fShaderDerivativeSupport targetCaps && antiAlias &&
  negb (GrPathFill_eqb kHairLine_PathFill fill) &&
  negb (GrIsFillInverted fill) &&
  isConvex path.

(** The draw target as [drawPath] observes it: its current view matrix and
    whether a reservation of a given size succeeds. *)
Record GrDrawTarget := mkTarget {
  getViewMatrix : GrMatrix;
  reserveVertexSpace : Z -> nat -> bool;
  reserveIndexSpace : nat -> bool
}.

(** The calls [drawPath] makes that change the target, in program order.
    [Call_drawIndexed] carries the contents of the two regions at the
    moment of submission. *)
Inductive TargetCall :=
| Call_AutoStateRestore_set
| Call_preConcatSamplerMatrices (stageMask : Z) (ivm : GrMatrix)
| Call_setViewMatrix (m : GrMatrix)
| Call_reserveVertexSpace (layout : Z) (vCount : nat)
| Call_reserveIndexSpace (iCount : nat)
| Call_resetVertexSource
| Call_setVertexEdgeType_kQuad
| Call_drawIndexed (startVertex startIndex vCount iCount : nat)
                   (vertices : list (option QuadVertex))
                   (indices : list (option nat))
| Call_AutoStateRestore_restore.

Record GrAAConvexPathRenderer := mkRenderer {
  fPath : SkPath;
  fTarget : GrDrawTarget;
  fTranslate : GrPoint
}.

(** [for (s = 0; s < kNumStages; ++s)]: iterations [s], ..., [s + n - 1]. *)
Fixpoint stage_layout (n s : nat) (stageMask layout : Z) : Z :=
  match n with
  | 0 => layout
  | S n' =>
      let layout :=
        if Z.eqb (Z.land (Z.shiftl 1 (Z.of_nat s)) stageMask) 0 then layout
        else Z.lor layout (StagePosAsTexCoordVertexLayoutBit s) in
      stage_layout n' (s + 1) stageMask layout
  end.

(** [drawPath] answers the calls it made on the target; the destructor of
    [asr] runs on every way out once [asr.set] has run.  [None] stands for
    a store outside a reserved region.  The opening [GrAssert] on convexity
    is a debug check and has no counterpart here. *)
Definition drawPath (r : GrAAConvexPathRenderer) (stageMask : Z)
    : option (list TargetCall) :=
  if isEmpty (fPath r) then Some []
  else
    let vm := getViewMatrix (fTarget r) in
    let vm := postTranslate vm (fX (fTranslate r)) (fY (fTranslate r)) in
    let t0 := [Call_AutoStateRestore_set] in
    let t1 :=
      match invert vm with
      | Some ivm => t0 ++ [Call_preConcatSamplerMatrices stageMask ivm]
      | None => t0
      end in
    let t2 := t1 ++ [Call_setViewMatrix GrMatrix_I] in
    let path := transform vm (fPath r) in
    let layout := stage_layout kNumStages 0 stageMask 0 in
    let layout := Z.lor layout kEdge_VertexLayoutBit in
    match get_segments path with
    | None => Some (t2 ++ [Call_AutoStateRestore_restore])
    | Some vecs =>
        let vCount := vec_vCount vecs in
        let iCount := vec_iCount vecs in
        let t3 := t2 ++ [Call_reserveVertexSpace layout vCount] in
        if negb (reserveVertexSpace (fTarget r) layout vCount) then
          Some (t3 ++ [Call_AutoStateRestore_restore])
        else
          let t4 := t3 ++ [Call_reserveIndexSpace iCount] in
          if negb (reserveIndexSpace (fTarget r) iCount) then
            Some (t4 ++ [Call_resetVertexSource;
                         Call_AutoStateRestore_restore])
          else
            c ← create_vertices (vec_segments vecs) (vec_fanPt vecs)
                                (reserved vCount) (reserved iCount);
            Some (t4 ++ [Call_setVertexEdgeType_kQuad;
                         Call_drawIndexed 0 0 vCount iCount
                                          (cells (verts c)) (cells (idxs c));
                         Call_AutoStateRestore_restore])
    end.
End Renderer.

(** ** Reference descriptions

    What the renderer is expected to compute, written without its loops and
    cursors; the properties below compare the translated code with them. *)

Section Reference.
Context {Sc : Scalar} {Ext : Externals Sc}.

(** *** Decoding *)

(** The points an item introduces, in the order they are classified. *)
Definition item_points (item : PathItem) : list GrPoint :=
  match item with
  | kMove_PathCmd p0 => [p0]
  | kLine_PathCmd _ p1 => [p1]
  | kQuadratic_PathCmd _ p1 p2 => [p1; p2]
  | kCubic_PathCmd _ p1 p2 p3 => [p1; p2; p3]
  | kClose_PathCmd => []
  end.

Definition fed_points (items : list PathItem) : list GrPoint :=
  concat (map item_points items).

(** The calls an item gives rise to: its points are classified first, and
    a cubic is flattened afterwards. *)
Definition item_calls (item : PathItem) : list DecodeCall :=
  map Call_update_degenerate_test (item_points item) ++
  match item with
  | kCubic_PathCmd p0 p1 p2 p3 => [Call_convertCubicToQuads p0 p1 p2 p3]
  | _ => []
  end.

Definition classify (pts : list GrPoint) : DegenerateTestData :=
  fold_left update_degenerate_test pts DegenerateTestData_new.

(** The same collaborators with another curve flattener. *)
Definition with_flattener
    (f : GrPoint -> GrPoint -> GrPoint -> GrPoint -> scalar -> list GrPoint)
    : Externals Sc :=
  {| normalize := normalize;
     distanceToLineBetween := distanceToLineBetween;
     convertCubicToQuads := f;
     quadDesignSpaceToUVCoords := quadDesignSpaceToUVCoords;
     indeterminate := indeterminate;
     GrMatrix := GrMatrix;
     GrMatrix_I := GrMatrix_I;
     postTranslate := postTranslate;
     invert := invert;
     transform := transform;
     kNumStages := kNumStages;
     StagePosAsTexCoordVertexLayoutBit := StagePosAsTexCoordVertexLayoutBit;
     kEdge_VertexLayoutBit := kEdge_VertexLayoutBit;
     GrIsFillInverted := GrIsFillInverted |}.

(** *** The classifier as a state machine *)

Definition far_from_anchor (d : DegenerateTestData) (pt : GrPoint) : bool :=
  (distanceToSqd pt (fFirstPoint d) >? TOL_SQD)%sc.

(** The line through the anchor [a] and [b]: a normal and an offset. *)
Definition line_through (a b : GrPoint) : GrVec * scalar :=
  let n := setOrthog (normalize (pt_sub b a)) kLeft_Side in
  (n, (- dot n a)%sc).

(** The signed distance of [pt] from the line [n . x + c = 0]. *)
Definition signed_distance (n : GrVec) (c : scalar) (pt : GrPoint)
    : scalar :=
  (dot n pt + c)%sc.

Definition off_line (n : GrVec) (c : scalar) (pt : GrPoint) : bool :=
  (SkScalarAbs (signed_distance n c pt) >? TOL)%sc.

Inductive classifier_step
    : DegenerateTestData -> GrPoint -> DegenerateTestData -> Prop :=
| step_anchor d pt :
    fStage d = kInitial ->
    classifier_step d pt
      (mkDegenerateTestData kPoint pt (fLineNormal d) (fLineC d))
| step_near_anchor d pt :
    fStage d = kPoint -> far_from_anchor d pt = false ->
    classifier_step d pt d
| step_line d pt :
    fStage d = kPoint -> far_from_anchor d pt = true ->
    classifier_step d pt
      (mkDegenerateTestData kLine (fFirstPoint d)
         (fst (line_through (fFirstPoint d) pt))
         (snd (line_through (fFirstPoint d) pt)))
| step_on_line d pt :
    fStage d = kLine -> off_line (fLineNormal d) (fLineC d) pt = false ->
    classifier_step d pt d
| step_off_line d pt :
    fStage d = kLine -> off_line (fLineNormal d) (fLineC d) pt = true ->
    classifier_step d pt
      (mkDegenerateTestData kNonDegenerate (fFirstPoint d)
         (fLineNormal d) (fLineC d))
| step_absorbed d pt :
    fStage d = kNonDegenerate ->
    classifier_step d pt d.

(** *** Paths that stay on the classifier's own line *)

(** The first point of [pts] farther than the tolerance from the anchor
    [a], with the points after it. *)
Fixpoint first_far (a : GrPoint) (pts : list GrPoint)
    : option (GrPoint * list GrPoint) :=
  match pts with
  | [] => None
  | b :: rest =>
      if (distanceToSqd b a >? TOL_SQD)%sc then Some (b, rest)
      else first_far a rest
  end.

(** No point after the first far one is off the line through the anchor
    and that point.  A sequence without a far point qualifies. *)
Definition hugs_reference_line (pts : list GrPoint) : bool :=
  match pts with
  | [] => true
  | a :: rest =>
      match first_far a rest with
      | None => true
      | Some (b, rest') =>
          forallb (fun p => negb (off_line (fst (line_through a b))
                                           (snd (line_through a b)) p))
                  rest'
      end
  end.

(** *** Sizes *)

(** What the loops leave alone in a segment: its type and its points. *)
Definition shape (s : Segment) : SegmentType * arr2 GrPoint :=
  (fType s, fPts s).


(** The sum of [f] over the types of the segments [b] that the iterations
    [a], ..., [a + n - 1] visit. *)
Fixpoint edge_sizes (f : SegmentType -> nat) (segments : list Segment)
    (n a : nat) : nat :=
  match n with
  | 0 => 0
  | S n' =>
      f (fType (seg_at segments ((a + 1) `mod` length segments))) +
      edge_sizes f segments n' (a + 1)
  end.

Definition count_type (t : SegmentType) (segments : list Segment) : nat :=
  length (filter (fun s => fType s = t) segments).

(** *** The mesh, group by group *)

Definition group_vertices (segments : list Segment) (fanPt : GrPoint)
    (a : nat) : list QuadVertex :=
  let sega := seg_at segments a in
  let segb := seg_at segments ((a + 1) `mod` length segments) in
  corner_vertices sega segb ++
  match fType segb with
  | Segment_kLine => line_vertices sega segb fanPt
  | Segment_kQuad => quad_vertices sega segb fanPt
  end.

(** The indices of the group [a] when its first vertex is stored at [v]. *)
Definition group_indices (segments : list Segment) (a v : nat) : list nat :=
  let segb := seg_at segments ((a + 1) `mod` length segments) in
  corner_indices v ++
  match fType segb with
  | Segment_kLine => line_indices (v + 4)
  | Segment_kQuad => quad_indices (v + 4)
  end.

(** The vertices of the groups [a], ..., [a + n - 1], and their indices
    when the first of them is stored at [v]. *)
Fixpoint mesh_vertices (segments : list Segment) (fanPt : GrPoint)
    (n a : nat) : list QuadVertex :=
  match n with
  | 0 => []
  | S n' =>
      group_vertices segments fanPt a ++
      mesh_vertices segments fanPt n' (a + 1)
  end.

Fixpoint mesh_indices (segments : list Segment) (n a v : nat) : list nat :=
  match n with
  | 0 => []
  | S n' =>
      let segb := seg_at segments ((a + 1) `mod` length segments) in
      group_indices segments a v ++
      mesh_indices segments n' (a + 1) (v + (4 + edge_vertices (fType segb)))
  end.

(** A region whose first cells hold [ws], stored in this order and once
    each, and whose remaining [free] cells are unwritten. *)
Definition written {A} (r : Region A) (ws : list A) (free : nat) : Prop :=
  cells r = (Some <$> ws) ++ replicate free None /\
  stores r = seq 0 (length ws).

Definition cursor_at (c : Cursor) (wv : list QuadVertex) (fv : nat)
    (wi : list nat) (fi : nat) : Prop :=
  written (verts c) wv fv /\ cur_v c = length wv /\
  written (idxs c) wi fi /\ cur_i c = length wi.

(** *** The fan point *)

(** Consecutive pairs of a closed polygon, the last one wrapping around. *)
Definition wrapping_pairs (pts : list GrPoint)
    : list (GrPoint * GrPoint) :=
  match pts with
  | [] => []
  | p0 :: rest => zip pts (rest ++ [p0])
  end.

Definition shoelace_term (pr : GrPoint * GrPoint) : scalar :=
  (fX pr.1 * fY pr.2 - fX pr.2 * fY pr.1)%sc.






(** *** The draw entry point *)

(** The path in device space and the vertex layout [drawPath] works
    with. *)
Definition device_path (r : GrAAConvexPathRenderer) : SkPath :=
  transform (postTranslate (getViewMatrix (fTarget r))
                           (fX (fTranslate r)) (fY (fTranslate r)))
            (fPath r).

Definition layout_of (stageMask : Z) : Z :=
  Z.lor (stage_layout kNumStages 0 stageMask 0) kEdge_VertexLayoutBit.

(** Calls that touch the draw state only: no buffer is reserved or
    released and nothing is submitted. *)
Definition is_state_call (c : TargetCall) : bool :=
  match c with
  | Call_AutoStateRestore_set
  | Call_preConcatSamplerMatrices _ _
  | Call_setViewMatrix _
  | Call_AutoStateRestore_restore => true
  | _ => false
  end.
End Reference.

(** ** Further reference descriptions *)

Section FurtherReference.
Context {Sc : Scalar} {Ext : Externals Sc}.

(** *** Decoded segments *)

(** The segments the cubic loop pushes for the flattener's output: one per
    started triple, holding the second and third point of the triple.  A
    triple cut short is completed by reads past the end of the array. *)
Fixpoint quads_of (quads : list GrPoint) : list Segment :=
  match quads with
  | [] => []
  | [_] => [quad_segment indeterminate indeterminate]
  | [_; q1] => [quad_segment q1 indeterminate]
  | _ :: q1 :: q2 :: rest => quad_segment q1 q2 :: quads_of rest
  end.

(** The segments an item contributes. *)
Definition item_segments (item : PathItem) : list Segment :=
  match item with
  | kMove_PathCmd _ => []
  | kLine_PathCmd _ p1 => [line_segment p1]
  | kQuadratic_PathCmd _ p1 p2 => [quad_segment p1 p2]
  | kCubic_PathCmd p0 p1 p2 p3 =>
      quads_of (convertCubicToQuads p0 p1 p2 p3 SK_Scalar1)
  | kClose_PathCmd => []
  end.

Definition path_segments (items : list PathItem) : list Segment :=
  concat (map item_segments items).

Definition is_line_item (item : PathItem) : bool :=
  match item with kLine_PathCmd _ _ => true | _ => false end.
Definition is_quad_item (item : PathItem) : bool :=
  match item with kQuadratic_PathCmd _ _ _ => true | _ => false end.

(** How many items of a path satisfy [f]. *)
Definition count_items (f : PathItem -> bool) (items : list PathItem) : nat :=
  length (List.filter f items).

(** The number of quadratics the cubics of a path are flattened to. *)
Definition cubic_quads (items : list PathItem) : nat :=
  sum_list_with
    (fun item =>
       match item with
       | kCubic_PathCmd _ _ _ _ => length (item_segments item)
       | _ => 0
       end) items.

(** *** Normals and bisectors *)

(** The index of the segment before [k] in a cycle of [n]. *)
Definition prev_index (n k : nat) : nat := (k + n - 1) `mod` n.

(** The normal of the edge from [from] to [to]. *)
Definition edge_normal (side : Side) (from to : GrPoint) : GrVec :=
  setOrthog (normalize (pt_sub to from)) side.

(** The normals [compute_vectors] leaves in the segment [k] of [segments]:
    one per point, each from the point before it; the second slot of a line
    is left as it was. *)
Definition expected_norms (side : Side) (segments : list Segment) (k : nat)
    : arr2 GrVec :=
  let s := seg_at segments k in
  let p := endPt (seg_at segments (prev_index (length segments) k)) in
  match fType s with
  | Segment_kLine =>
      (edge_normal side p (arr2_get (fPts s) 0), arr2_get (fNorms s) 1)
  | Segment_kQuad =>
      (edge_normal side p (arr2_get (fPts s) 0),
       edge_normal side (arr2_get (fPts s) 0) (arr2_get (fPts s) 1))
  end.

(** The bisector at the junction before the segment [k]. *)
Definition expected_mid (segments : list Segment) (k : nat) : GrVec :=
  normalize
    (pt_add (arr2_get (fNorms (seg_at segments k)) 0)
            (endNorm (seg_at segments (prev_index (length segments) k)))).

(** What the bisector loop leaves alone in a segment. *)
Definition frame (s : Segment) : SegmentType * arr2 GrPoint * arr2 GrVec :=
  (fType s, fPts s, fNorms s).

(** *** Indices before their conversion to 16 bits *)

Definition raw_group_indices (segments : list Segment) (a v : nat)
    : list nat :=
  let segb := seg_at segments ((a + 1) `mod` length segments) in
  map (Nat.add v) [0; 2; 1; 0; 3; 2] ++
  map (Nat.add (v + 4))
      match fType segb with
      | Segment_kLine => [0; 2; 1; 3; 1; 2; 4; 3; 2]
      | Segment_kQuad => [3; 1; 2; 4; 3; 2; 5; 3; 4; 0; 2; 1]
      end.

Fixpoint raw_mesh_indices (segments : list Segment) (n a v : nat)
    : list nat :=
  match n with
  | 0 => []
  | S n' =>
      let segb := seg_at segments ((a + 1) `mod` length segments) in
      raw_group_indices segments a v ++
      raw_mesh_indices segments n' (a + 1)
                       (v + (4 + edge_vertices (fType segb)))
  end.

(** *** Places in the mesh *)

(** The position of the first vertex of the group [a]. *)
Definition group_start (segments : list Segment) (a : nat) : nat :=
  4 * a + edge_sizes edge_vertices segments a 0.

(** The position of the first index of the group [a]. *)
Definition index_start (segments : list Segment) (a : nat) : nat :=
  6 * a + edge_sizes edge_indices segments a 0.

(** The position of the vertex stored in the cell [k], if it was written. *)
Definition position_at (c : Cursor) (k : nat) : option GrPoint :=
  fPos <$> mjoin (cells (verts c) !! k).

(** *** Calls on the target *)

Definition is_draw_call (c : TargetCall) : bool :=
  match c with Call_drawIndexed _ _ _ _ _ _ => true | _ => false end.

Definition is_save_or_restore (c : TargetCall) : bool :=
  match c with
  | Call_AutoStateRestore_set | Call_AutoStateRestore_restore => true
  | _ => false
  end.

(** The bit [i] of the layout for a stage mask, stage by stage. *)
Definition layout_bit (stageMask : Z) (i : Z) : bool :=
  existsb (fun s => Z.testbit stageMask (Z.of_nat s) &&
                    Z.testbit (StagePosAsTexCoordVertexLayoutBit s) i)
          (seq 0 kNumStages)
  || Z.testbit kEdge_VertexLayoutBit i.
End FurtherReference.

(** ** The single-precision configuration *)

(** IEEE 754 binary32 with round to nearest even, as the standard library
    specifies it: 24 bits of precision, exponents below 128. *)
Module F32.
Definition prec : Z := 24.
Definition emax : Z := 128.

Definition of_Z (n : Z) : spec_float := binary_normalize prec emax n 0 false.
Definition add : spec_float -> spec_float -> spec_float := SFadd prec emax.
Definition sub : spec_float -> spec_float -> spec_float := SFsub prec emax.
Definition mul : spec_float -> spec_float -> spec_float := SFmul prec emax.
Definition div : spec_float -> spec_float -> spec_float := SFdiv prec emax.
Definition sqrt : spec_float -> spec_float := SFsqrt prec emax.
Definition is_nan (x : spec_float) : bool :=
  match x with S754_nan => true | _ => false end.

(** [FLT_MAX], 3.402823466e+38. *)
Definition max_float : spec_float := S754_finite false (2 ^ 24 - 1) 104.

(** The rational a finite number denotes; [None] for infinities and NaN. *)
Definition to_Q (x : spec_float) : option Q :=
  match x with
  | S754_zero _ => Some 0%Q
  | S754_finite s m e =>
      let n := if s then Z.neg m else Z.pos m in
      Some (Qred (if (0 <=? e)%Z then inject_Z (n * 2 ^ e)
                  else Qmake n (Z.to_pos (2 ^ (- e)))))
  | _ => None
  end.
End F32.

(** [SkScalar] as [float]: [SK_ScalarNearlyZero] is [SK_Scalar1 / (1 << 12)]
    and [SK_ScalarMax] is [FLT_MAX]. *)
#[export] Instance F32_Scalar : Scalar := {|
  scalar := spec_float;
  szero := S754_zero false;
  SK_Scalar1 := F32.of_Z 1;
  SK_ScalarNearlyZero := F32.div (F32.of_Z 1) (F32.of_Z (Z.shiftl 1 12));
  GR_ScalarMax := F32.max_float;
  sadd := F32.add;
  ssub := F32.sub;
  smul := F32.mul;
  sdiv := F32.div;
  sneg := SFopp;
  SkScalarAbs := SFabs;
  slt := SFltb;
  sofint := F32.of_Z;
  SkScalarIsNaN := F32.is_nan
|}.

Module F32Ext.
Definition cross (u v : @GrPoint F32_Scalar) : spec_float :=
  (fX u * fY v - fY u * fX v)%sc.

(** [SkPoint::normalize]: scale to length one unless the squared length
    is nearly zero, in which case the vector is left as it is. *)
Definition normalize (v : @GrPoint F32_Scalar) : @GrPoint F32_Scalar :=
  let mag2 := (fX v * fX v + fY v * fY v)%sc in
  if SFleb mag2 (SK_ScalarNearlyZero * SK_ScalarNearlyZero)%sc then v
  else
    let s := (SK_Scalar1 / F32.sqrt mag2)%sc in
    mkPoint (fX v * s)%sc (fY v * s)%sc.

(** [SkPoint::distanceToLineBetween]: the root of the squared cross
    product over the squared length of [b - a]. *)
Definition distanceToLineBetween (p a b : @GrPoint F32_Scalar)
    : spec_float :=
  let u := pt_sub b a in
  let v := pt_sub p a in
  let det := cross u v in
  F32.sqrt (det * det / dot u u)%sc.

(** A flattener that answers one quadratic per cubic: the end points and
    the mean of the two control points extrapolated from them. *)
Definition convertCubicToQuads (p0 p1 p2 p3 : @GrPoint F32_Scalar)
    (tol : spec_float) : list (@GrPoint F32_Scalar) :=
  let k := (sofint 3 / sofint 2)%sc in
  let c0 := pt_add p0 (scale (pt_sub p1 p0) k) in
  let c1 := pt_add p3 (scale (pt_sub p2 p3) k) in
  [p0; scale (pt_add c0 c1) (SK_Scalar1 / sofint 2)%sc; p3].

(** The affine map that sends the control polygon [q0], [q1], [q2] to
    (0,0), (1/2,0), (1,1), applied to [p]. *)
Definition quadDesignSpaceToUVCoords (q0 q1 q2 p : @GrPoint F32_Scalar)
    : @GrPoint F32_Scalar :=
  let e1 := pt_sub q1 q0 in
  let e2 := pt_sub q2 q0 in
  let d := pt_sub p q0 in
  let det := cross e1 e2 in
  let s := (cross d e2 / det)%sc in
  let t := (cross e1 d / det)%sc in
  mkPoint (s / sofint 2 + t)%sc t.

(** View matrices restricted to translations. *)
Definition shift_item (m : @GrPoint F32_Scalar) (i : @PathItem F32_Scalar)
    : @PathItem F32_Scalar :=
  match i with
  | kMove_PathCmd p0 => kMove_PathCmd (pt_add p0 m)
  | kLine_PathCmd p0 p1 => kLine_PathCmd (pt_add p0 m) (pt_add p1 m)
  | kQuadratic_PathCmd p0 p1 p2 =>
      kQuadratic_PathCmd (pt_add p0 m) (pt_add p1 m) (pt_add p2 m)
  | kCubic_PathCmd p0 p1 p2 p3 =>
      kCubic_PathCmd (pt_add p0 m) (pt_add p1 m) (pt_add p2 m) (pt_add p3 m)
  | kClose_PathCmd => kClose_PathCmd
  end.

Definition transform (m : @GrPoint F32_Scalar) (p : @SkPath F32_Scalar)
    : @SkPath F32_Scalar :=
  mkPath (map (shift_item m) (iter p)) (isEmpty p) (isConvex p)
         (cheapComputeDirection p).

Definition GrIsFillInverted (fill : GrPathFill) : bool :=
  match fill with
  | kInverseWinding_PathFill | kInverseEvenOdd_PathFill => true
  | _ => false
  end.
End F32Ext.

(** Modelled from the spec: the collaborators of sections 3 and 6 (vector
    normalisation, the distance to a line, the curve-flattening service, the
    canonical parametric space of a quadratic, the transform stack, the
    vertex layout bits), none of which is part of this file of the
    repository, in one instance on which scenarios can be run. *)
#[export] Instance F32_Externals : Externals F32_Scalar := {|
  normalize := F32Ext.normalize;
  distanceToLineBetween := F32Ext.distanceToLineBetween;
  convertCubicToQuads := F32Ext.convertCubicToQuads;
  quadDesignSpaceToUVCoords := F32Ext.quadDesignSpaceToUVCoords;
  indeterminate := mkPoint S754_nan S754_nan;
  GrMatrix := @GrPoint F32_Scalar;
  GrMatrix_I := mkPoint (S754_zero false) (S754_zero false);
  postTranslate := fun m dx dy => pt_add m (mkPoint dx dy);
  invert := fun m => Some (pt_neg m);
  transform := F32Ext.transform;
  kNumStages := 3;
  StagePosAsTexCoordVertexLayoutBit := fun s => Z.shiftl 1 (9 + Z.of_nat s);
  kEdge_VertexLayoutBit := Z.shiftl 1 15;
  GrIsFillInverted := F32Ext.GrIsFillInverted
|}.

(** ** Scenarios *)

Module Scenario.
Definition pt (x y : Z) : @GrPoint F32_Scalar :=
  mkPoint (F32.of_Z x) (F32.of_Z y).

Definition half : spec_float := F32.div (F32.of_Z 1) (F32.of_Z 2).

(** The exact coordinates of a point as rationals, when both are finite. *)
Definition point_to_Q (p : @GrPoint F32_Scalar) : option (Q * Q) :=
  match F32.to_Q (fX p), F32.to_Q (fY p) with
  | Some x, Some y => Some (x, y)
  | _, _ => None
  end.

Definition is_finite_point (p : @GrPoint F32_Scalar) : bool :=
  match point_to_Q p with Some _ => true | None => false end.


(** A closed polygon through the given corners, as the force-closed
    iteration presents it: move, one line per further corner, the closing
    line, close. *)
Fixpoint lines_from (prev : @GrPoint F32_Scalar)
    (rest : list (@GrPoint F32_Scalar)) : list (@PathItem F32_Scalar) :=
  match rest with
  | [] => []
  | p :: rest' => kLine_PathCmd prev p :: lines_from p rest'
  end.

Definition polygon (corners : list (@GrPoint F32_Scalar)) (dir : Direction)
    : @SkPath F32_Scalar :=
  match corners with
  | [] => mkPath [] true true dir
  | p0 :: rest =>
      mkPath (kMove_PathCmd p0 :: lines_from p0 (rest ++ [p0])
                ++ [kClose_PathCmd])
             false true dir
  end.

Definition unit_square (dir : Direction) : @SkPath F32_Scalar :=
  polygon [pt 0 0; pt 1 0; pt 1 1; pt 0 1] dir.

(** The segments [get_segments] decodes from the unit square. *)
Definition unit_square_segments : list (@Segment F32_Scalar) :=
  map line_segment [pt 1 0; pt 1 1; pt 0 1; pt 0 0].



(** A square of side 1.5e19, whose shoelace sum leaves the range of
    [float]. *)
Definition huge : Z := 15 * 10 ^ 18.
Definition huge_square : @SkPath F32_Scalar :=
  polygon [pt 0 0; pt huge 0; pt huge huge; pt 0 huge] kCCW_Direction.

(** A line, a quadratic around the corner (2,2), and the closing line. *)
Definition rounded : @SkPath F32_Scalar :=
  mkPath [kMove_PathCmd (pt 0 0);
          kLine_PathCmd (pt 0 0) (pt 2 0);
          kQuadratic_PathCmd (pt 2 0) (pt 2 2) (pt 0 2);
          kLine_PathCmd (pt 0 2) (pt 0 0);
          kClose_PathCmd]
         false true kCCW_Direction.

(** Targets with the identity view matrix: one that grants every
    reservation and one that has no index space. *)
Definition generous : @GrDrawTarget F32_Scalar F32_Externals :=
  mkTarget (pt 0 0) (fun _ _ => true) (fun _ => true).
Definition no_index_space : @GrDrawTarget F32_Scalar F32_Externals :=
  mkTarget (pt 0 0) (fun _ _ => true) (fun _ => false).

Definition renderer (path : @SkPath F32_Scalar)
    (target : @GrDrawTarget F32_Scalar F32_Externals)
    : @GrAAConvexPathRenderer F32_Scalar F32_Externals :=
  mkRenderer path target (pt 0 0).

(** The two signed-distance scalars of the vertex that [create_vertices]
    stores at position [k] for a path. *)
Definition distance_fields_at (path : @SkPath F32_Scalar) (k : nat)
    : option (@scalar F32_Scalar * @scalar F32_Scalar) :=
  vecs ← get_segments path;
  c ← create_vertices (vec_segments vecs) (vec_fanPt vecs)
                      (reserved (vec_vCount vecs))
                      (reserved (vec_iCount vecs));
  v ← mjoin (cells (verts c) !! k);
  Some (fD0 v, fD1 v).

(** How many vertices and indices [create_vertices] has written for a
    path. *)
Definition written_cells (path : @SkPath F32_Scalar) : option (nat * nat) :=
  vecs ← get_segments path;
  c ← create_vertices (vec_segments vecs) (vec_fanPt vecs)
                      (reserved (vec_vCount vecs))
                      (reserved (vec_iCount vecs));
  Some (length (omap id (cells (verts c))),
        length (omap id (cells (idxs c)))).

End Scenario.

(** * Properties *)

(** ** Decoding and classification *)

Section Decoding.
Context {Sc : Scalar} {Ext : Externals Sc}.

Lemma push_quads_keeps n q quads d :
  degenerateData (push_quads n q quads d) = degenerateData d /\
  calls_of (push_quads n q quads d) = calls_of d.
Proof.
  revert q d. induction n as [|n IH]; intros q d; simpl; [done|].
  case_decide; [|done].
  destruct (IH (q + 3) (push_quad d (quad_at quads (q + 1))
                                  (quad_at quads (q + 2)))) as [-> ->].
  done.
Qed.

Lemma decode_item_data d item :
  degenerateData (decode_item d item) =
  fold_left update_degenerate_test (item_points item) (degenerateData d).
Proof.
  destruct item; simpl; try done.
  unfold flatten. by rewrite (proj1 (push_quads_keeps _ _ _ _)).
Qed.

Lemma decode_item_calls d item :
  calls_of (decode_item d item) = calls_of d ++ item_calls item.
Proof.
  destruct item; unfold item_calls; simpl;
    rewrite ?app_nil_r, <- ?app_assoc; try done.
  unfold flatten. rewrite (proj2 (push_quads_keeps _ _ _ _)). simpl.
  by rewrite <- !app_assoc.
Qed.

Lemma decode_data items d :
  degenerateData (decode items d) =
  fold_left update_degenerate_test (fed_points items) (degenerateData d).
Proof.
  revert d. induction items as [|item items IH]; intros d; [done|].
  simpl. unfold fed_points. simpl. rewrite fold_left_app.
  rewrite IH, decode_item_data. done.
Qed.

Lemma decode_classifies items segments :
  degenerateData (decode items (Decoder_new segments)) =
  classify (fed_points items).
Proof. by rewrite decode_data. Qed.

Lemma decode_calls items d :
  calls_of (decode items d) = calls_of d ++ concat (map item_calls items).
Proof.
  revert d. induction items as [|item items IH]; intros d; simpl.
  - by rewrite app_nil_r.
  - by rewrite IH, decode_item_calls, <- app_assoc.
Qed.

Lemma absorbed pts d :
  fStage d = kNonDegenerate -> fold_left update_degenerate_test pts d = d.
Proof.
  intros H. induction pts as [|p pts IH]; [done|].
  simpl. unfold update_degenerate_test at 2. rewrite H. exact IH.
Qed.

Lemma classify_from_line pts d :
  fStage d = kLine ->
  isDegenerate (fold_left update_degenerate_test pts d) =
  forallb (fun p => negb (off_line (fLineNormal d) (fLineC d) p)) pts.
Proof.
  revert d. induction pts as [|p pts IH]; intros d H; simpl.
  - unfold isDegenerate. by rewrite H.
  - unfold update_degenerate_test at 2. rewrite H.
    unfold off_line at 1, signed_distance.
    destruct (SkScalarAbs _ >? TOL)%sc; simpl.
    + by rewrite absorbed.
    + by apply IH.
Qed.

Lemma classify_from_point pts d :
  fStage d = kPoint ->
  isDegenerate (fold_left update_degenerate_test pts d) =
  match first_far (fFirstPoint d) pts with
  | None => true
  | Some (b, rest) =>
      forallb (fun p => negb (off_line (fst (line_through (fFirstPoint d) b))
                                       (snd (line_through (fFirstPoint d) b))
                                       p)) rest
  end.
Proof.
  revert d. induction pts as [|p pts IH]; intros d H; simpl.
  - unfold isDegenerate. by rewrite H.
  - unfold update_degenerate_test at 2. rewrite H.
    destruct (distanceToSqd p (fFirstPoint d) >? TOL_SQD)%sc.
    + by rewrite classify_from_line.
    + by apply IH.
Qed.

Lemma classify_hugs pts :
  isDegenerate (classify pts) = hugs_reference_line pts.
Proof.
  destruct pts as [|a rest]; [done|].
  unfold classify. simpl. by rewrite classify_from_point.
Qed.

Lemma get_segments_degenerate path :
  hugs_reference_line (fed_points (iter path)) = true ->
  get_segments path = None.
Proof.
  intros H. unfold get_segments.
  by rewrite decode_classifies, classify_hugs, H.
Qed.

End Decoding.

Section Properties.
Context {Sc : Scalar} {Ext : Externals Sc}.


(** The calls [drawPath] makes before it decodes the path. *)
Lemma prologue_state_calls (m : Z) (o : option GrMatrix) :
  forallb is_state_call
    (match o with
     | Some ivm =>
         [Call_AutoStateRestore_set] ++ [Call_preConcatSamplerMatrices m ivm]
     | None => [Call_AutoStateRestore_set]
     end ++ [Call_setViewMatrix GrMatrix_I]) = true.
Proof. by destruct o. Qed.


(** C3 (as amended).  The classifier is a state machine over Initial, Point,
    Line and NonDegenerate with tolerance 1/16: Initial stores the point as
    anchor and moves to Point; Point moves to Line exactly when the squared
    distance to the anchor exceeds the squared tolerance, taking the
    normalised, rotated difference as normal and minus its product with the
    anchor as offset; Line moves to NonDegenerate exactly when the absolute
    value of the signed distance from that line exceeds the tolerance;
    NonDegenerate is never left. *)
Theorem classifier_is_state_machine :
  TOL = (SK_Scalar1 / sofint 16)%sc /\
  TOL_SQD = (TOL * TOL)%sc /\
  (forall d pt d',
     classifier_step d pt d' <-> d' = update_degenerate_test d pt) /\
  (forall first n c pts,
     fold_left update_degenerate_test pts
               (mkDegenerateTestData kNonDegenerate first n c) =
     mkDegenerateTestData kNonDegenerate first n c).
Proof.
  split; [done|]. split; [done|]. split.
  - intros d pt d'. split.
    + intros H. unfold update_degenerate_test.
      destruct H as [d pt H|d pt H Hc|d pt H Hc|d pt H Hc|d pt H Hc|d pt H];
        rewrite H; try done; unfold far_from_anchor, off_line,
        signed_distance in Hc; by rewrite Hc.
    + intros ->. unfold update_degenerate_test.
      destruct (fStage d) eqn:H.
      * by apply step_anchor.
      * destruct (distanceToSqd pt (fFirstPoint d) >? TOL_SQD)%sc eqn:Hc.
        -- by apply (step_line d pt).
        -- by apply step_near_anchor.
      * destruct (SkScalarAbs (dot (fLineNormal d) pt + fLineC d) >? TOL)%sc
          eqn:Hc.
        -- by apply step_off_line.
        -- by apply step_on_line.
      * by apply step_absorbed.
  - intros first n c pts. by apply absorbed.
Qed.

(** C5.  [canDrawPath] answers true exactly when the target supports shader
    derivatives, anti-aliasing is requested, the fill is not hairline, the
    fill is not inverted, and the path is convex. *)
Theorem canDrawPath_iff (targetCaps : Caps) (path : SkPath)
    (fill : GrPathFill) (antiAlias : bool) :
  canDrawPath targetCaps path fill antiAlias = true <->
  fShaderDerivativeSupport targetCaps = true /\
  antiAlias = true /\
  fill <> kHairLine_PathFill /\
  GrIsFillInverted fill = false /\
  isConvex path = true.
Proof.
  unfold canDrawPath.
  rewrite !andb_true_iff, !negb_true_iff.
  assert (GrPathFill_eqb kHairLine_PathFill fill = false <->
          fill <> kHairLine_PathFill) as ->; [|tauto].
  destruct fill; simpl; split; congruence.
Qed.

(** C7.  When the index reservation fails after the vertex reservation
    succeeded, [drawPath] ends with the two reservations, the call of
    [resetVertexSource] and the restoration of the draw state, and submits
    no draw; when the vertex reservation fails, it ends with that
    reservation and the restoration, and submits no draw either. *)
Theorem failed_reservation_releases
    (r : GrAAConvexPathRenderer) (stageMask : Z) (vecs : Vectors) :
  isEmpty (fPath r) = false ->
  get_segments (device_path r) = Some vecs ->
  (reserveVertexSpace (fTarget r) (layout_of stageMask) (vec_vCount vecs)
     = true ->
   reserveIndexSpace (fTarget r) (vec_iCount vecs) = false ->
   exists pre,
     drawPath r stageMask =
       Some (pre ++
             [Call_reserveVertexSpace (layout_of stageMask) (vec_vCount vecs);
              Call_reserveIndexSpace (vec_iCount vecs);
              Call_resetVertexSource;
              Call_AutoStateRestore_restore]) /\
     forallb is_state_call pre = true) /\
  (reserveVertexSpace (fTarget r) (layout_of stageMask) (vec_vCount vecs)
     = false ->
   exists pre,
     drawPath r stageMask =
       Some (pre ++
             [Call_reserveVertexSpace (layout_of stageMask) (vec_vCount vecs);
              Call_AutoStateRestore_restore]) /\
     forallb is_state_call pre = true).
Proof.
  intros Hne Hsegs. split.
  - intros Hv Hi. unfold drawPath. rewrite Hne. cbv zeta.
    fold (device_path r). rewrite Hsegs. fold (layout_of stageMask).
    rewrite Hv, Hi. simpl negb. cbv iota.
    eexists. split; [|apply prologue_state_calls].
    by rewrite <- !app_assoc.
  - intros Hv. unfold drawPath. rewrite Hne. cbv zeta.
    fold (device_path r). rewrite Hsegs. fold (layout_of stageMask).
    rewrite Hv. simpl negb. cbv iota.
    eexists. split; [|apply prologue_state_calls].
    by rewrite <- !app_assoc.
Qed.

(** C10.  Of a cubic, the classifier is fed the three new control points,
    in order, before the curve is handed to the flattener; every call of the
    classifier during decoding is on a point of an item; and the classifier's
    final state is the same whatever the flattener answers. *)
Theorem cubic_control_points_are_classified (items : list PathItem) :
  calls_of (decode items (Decoder_new [])) = concat (map item_calls items) /\
  (forall p0 p1 p2 p3,
     item_calls (kCubic_PathCmd p0 p1 p2 p3) =
     [Call_update_degenerate_test p1;
      Call_update_degenerate_test p2;
      Call_update_degenerate_test p3;
      Call_convertCubicToQuads p0 p1 p2 p3]) /\
  (forall f,
     degenerateData
       (decode (Ext := with_flattener f) items (Decoder_new [])) =
     classify (fed_points items)).
Proof.
  split; [by rewrite decode_calls|]. split; [done|].
  intros f.
  exact (@decode_classifies Sc (with_flattener f) items []).
Qed.

(** ** Segments under the loops *)

Lemma seg_at_insert_eq (l : list Segment) b x :
  b < length l -> seg_at (<[b := x]> l) b = x.
Proof. intros H. unfold seg_at. by rewrite list_lookup_insert_eq. Qed.

Lemma seg_at_insert_ne (l : list Segment) b k x :
  k <> b -> seg_at (<[b := x]> l) k = seg_at l k.
Proof. intros H. unfold seg_at. by rewrite list_lookup_insert_ne. Qed.

Lemma seg_at_lookup (l : list Segment) k s :
  l !! k = Some s -> seg_at l k = s.
Proof. intros H. unfold seg_at. by rewrite H. Qed.

(** Any view [g] of a segment that an update leaves alone. *)
Lemma view_insert {B} (g : Segment -> B) (l : list Segment) b x :
  g x = g (seg_at l b) -> map g (<[b := x]> l) = map g l.
Proof.
  intros H. destruct (decide (b < length l)) as [Hb|Hb].
  - rewrite list_fmap_insert. apply list_insert_id.
    rewrite list_lookup_fmap.
    destruct (lookup_lt_is_Some_2 l b Hb) as [s Hs].
    rewrite Hs. simpl. f_equal. by rewrite H, (seg_at_lookup _ _ _ Hs).
  - rewrite list_insert_ge; [done|lia].
Qed.

Lemma view_seg_at {B} (g : Segment -> B) (l l' : list Segment) k :
  k < length l -> map g l = map g l' -> g (seg_at l k) = g (seg_at l' k).
Proof.
  intros Hk H. unfold seg_at.
  assert (map g l !! k = map g l' !! k) as Hl by by rewrite H.
  rewrite !list_lookup_fmap in Hl.
  destruct (lookup_lt_is_Some_2 l k Hk) as [s Hs]. rewrite Hs in *.
  destruct (l' !! k); simpl in *; congruence.
Qed.

Lemma shape_insert (l : list Segment) b x :
  shape x = shape (seg_at l b) ->
  map shape (<[b := x]> l) = map shape l.
Proof. apply view_insert. Qed.

Lemma shape_seg_at (l l' : list Segment) k :
  map shape l = map shape l' -> shape (seg_at l k) = shape (seg_at l' k).
Proof.
  intros H. unfold seg_at.
  assert (map shape l !! k = map shape l' !! k) as Hk by by rewrite H.
  rewrite !list_lookup_fmap in Hk.
  destruct (l !! k), (l' !! k); simpl in *; congruence.
Qed.

Lemma shape_length (l l' : list Segment) :
  map shape l = map shape l' -> length l = length l'.
Proof. intros H. by rewrite <- (length_map shape l), H, length_map. Qed.

Lemma shape_fType s s' : shape s = shape s' -> fType s = fType s'.
Proof. unfold shape. congruence. Qed.

Lemma shape_endPt s s' : shape s = shape s' -> endPt s = endPt s'.
Proof. unfold shape, endPt. intros [= -> ->]. done. Qed.


Lemma point_normals_shape side n p prev s :
  shape (point_normals side n p prev s) = shape s.
Proof.
  revert p prev s. induction n as [|n IH]; intros p prev s; [done|].
  simpl. by rewrite IH.
Qed.

Lemma normals_loop_shape side n a segments v i :
  map shape (normals_loop side n a segments v i).1.1 = map shape segments.
Proof.
  revert a segments v i.
  induction n as [|n IH]; intros a segments v i; [done|].
  simpl. rewrite IH. apply shape_insert, point_normals_shape.
Qed.

Lemma mids_loop_shape n a segments v i :
  map shape (mids_loop n a segments v i).1.1 = map shape segments.
Proof.
  revert a segments v i.
  induction n as [|n IH]; intros a segments v i; [done|].
  simpl. rewrite IH. by apply shape_insert.
Qed.

Lemma compute_vectors_shape segments dir :
  map shape (vec_segments (compute_vectors segments dir)) =
  map shape segments.
Proof.
  unfold compute_vectors.
  pose proof (normals_loop_shape (normSide_of dir) (length segments) 0
                                 segments 0 0) as H1.
  destruct (normals_loop _ _ _ _ _ _) as [[s1 v1] i1]. simpl in H1.
  pose proof (mids_loop_shape (length segments) 0 s1 v1 i1) as H2.
  destruct (mids_loop _ _ _ _ _) as [[s2 v2] i2]. simpl in *.
  by rewrite H2.
Qed.

(** ** Sizes *)

Lemma edge_sizes_shape f (l l' : list Segment) n a :
  map shape l = map shape l' -> edge_sizes f l n a = edge_sizes f l' n a.
Proof.
  intros H. revert a. induction n as [|n IH]; intros a; [done|].
  simpl. rewrite IH, (shape_length _ _ H).
  by rewrite (shape_fType _ _ (shape_seg_at _ _ _ H)).
Qed.

Lemma normals_loop_counts side n a segments v i :
  (normals_loop side n a segments v i).1.2 =
    v + edge_sizes edge_vertices segments n a /\
  (normals_loop side n a segments v i).2 =
    i + edge_sizes edge_indices segments n a.
Proof.
  revert a segments v i.
  induction n as [|n IH]; intros a segments v i; simpl; [lia|].
  set (b := (a + 1) `mod` length segments).
  set (segb' := point_normals _ _ _ _ _).
  assert (shape segb' = shape (seg_at segments b)) as Hs
    by apply point_normals_shape.
  destruct (IH (a + 1) (<[b := segb']> segments)
               (v + edge_vertices (fType segb'))
               (i + edge_indices (fType segb'))) as [-> ->].
  rewrite (edge_sizes_shape edge_vertices _ segments),
    (edge_sizes_shape edge_indices _ segments) by by apply shape_insert.
  rewrite (shape_fType _ _ Hs). lia.
Qed.

Lemma mids_loop_counts n a segments v i :
  (mids_loop n a segments v i).1.2 = v + 4 * n /\
  (mids_loop n a segments v i).2 = i + 6 * n.
Proof.
  revert a segments v i.
  induction n as [|n IH]; intros a segments v i; cbn [mids_loop];
    [simpl; lia|].
  rewrite (proj1 (IH _ _ _ _)), (proj2 (IH _ _ _ _)). lia.
Qed.

Lemma compute_vectors_counts segments dir :
  vec_vCount (compute_vectors segments dir) =
    edge_sizes edge_vertices segments (length segments) 0
    + 4 * length segments /\
  vec_iCount (compute_vectors segments dir) =
    edge_sizes edge_indices segments (length segments) 0
    + 6 * length segments.
Proof.
  unfold compute_vectors.
  pose proof (normals_loop_counts (normSide_of dir) (length segments) 0
                                  segments 0 0) as [H1 H2].
  destruct (normals_loop _ _ _ _ _ _) as [[s1 v1] i1]. simpl in H1, H2.
  pose proof (mids_loop_counts (length segments) 0 s1 v1 i1) as [H3 H4].
  destruct (mids_loop _ _ _ _ _) as [[s2 v2] i2]. simpl in *. lia.
Qed.

Lemma edge_sizes_split f (segments : list Segment) n a :
  edge_sizes f segments (n + 1) a =
  edge_sizes f segments n a +
  f (fType (seg_at segments ((a + n + 1) `mod` length segments))).
Proof.
  revert a. induction n as [|n IH]; intros a; simpl.
  - by rewrite Nat.add_0_r, Nat.add_0_r.
  - rewrite IH. replace (a + 1 + n + 1) with (a + S n + 1) by lia. lia.
Qed.

Lemma edge_sizes_drop f (segments : list Segment) n a :
  a + n < length segments ->
  edge_sizes f segments n a =
  sum_list_with (fun s => f (fType s)) (take n (drop (a + 1) segments)).
Proof.
  revert a. induction n as [|n IH]; intros a H; [done|].
  simpl. rewrite Nat.mod_small by lia.
  destruct (lookup_lt_is_Some_2 segments (a + 1)) as [s Hs]; [lia|].
  rewrite (seg_at_lookup _ _ _ Hs), (drop_S _ _ _ Hs). simpl.
  rewrite IH by lia. by replace (a + 1 + 1) with (S (a + 1)) by lia.
Qed.

Lemma edge_sizes_total f (segments : list Segment) :
  edge_sizes f segments (length segments) 0 =
  sum_list_with (fun s => f (fType s)) segments.
Proof.
  destruct segments as [|s0 rest]; [done|].
  change (length (s0 :: rest)) with (S (length rest)).
  replace (S (length rest)) with (length rest + 1) at 1 by lia.
  rewrite edge_sizes_split, edge_sizes_drop by (simpl; lia).
  change (drop (0 + 1) (s0 :: rest)) with rest. rewrite firstn_all.
  replace (0 + length rest + 1) with (length (s0 :: rest)) by (simpl; lia).
  rewrite Nat.Div0.mod_same. simpl.
  change (seg_at (s0 :: rest) 0) with s0. lia.
Qed.

Lemma sum_by_type f (segments : list Segment) :
  sum_list_with (fun s => f (fType s)) segments =
  f Segment_kLine * count_type Segment_kLine segments +
  f Segment_kQuad * count_type Segment_kQuad segments.
Proof.
  unfold count_type. induction segments as [|s l IH]; simpl; [lia|].
  rewrite IH, !filter_cons. destruct (fType s) eqn:Ht; simpl;
    repeat case_decide; try congruence; simpl; lia.
Qed.

(** ** Stores into the reserved regions *)

Lemma to_uint16_le n : to_uint16 n <= n.
Proof. unfold to_uint16. apply Nat.Div0.mod_le. Qed.

Lemma reserved_written {A} n : written (@reserved A n) [] n.
Proof. done. Qed.

Lemma store_written {A} (r : Region A) ws free x :
  written r ws (S free) ->
  exists r', store r (length ws) x = Some r' /\ written r' (ws ++ [x]) free.
Proof.
  intros [Hc Hs]. unfold store.
  assert (length (cells r) = length ws + S free) as Hl.
  { rewrite Hc, length_app, length_fmap, length_replicate. done. }
  rewrite decide_True by lia.
  eexists. split; [reflexivity|]. split; simpl.
  - rewrite Hc. rewrite insert_app_r_alt by (rewrite length_fmap; lia).
    rewrite length_fmap, Nat.sub_diag. simpl.
    by rewrite fmap_app, <- app_assoc.
  - rewrite Hs, length_app. simpl. by rewrite seq_app.
Qed.

Lemma store_from_written {A} (r : Region A) ws free xs :
  written r ws free -> length xs <= free ->
  exists r',
    store_from r (length ws) xs = Some r' /\
    written r' (ws ++ xs) (free - length xs).
Proof.
  revert r ws free. induction xs as [|x xs IH]; intros r ws free H Hl.
  - exists r. simpl. rewrite app_nil_r, Nat.sub_0_r. done.
  - simpl in Hl. destruct free as [|free]; [lia|].
    destruct (store_written r ws free x H) as (r1 & Hr1 & Hw1).
    destruct (IH r1 (ws ++ [x]) free Hw1) as (r2 & Hr2 & Hw2); [lia|].
    exists r2. simpl. rewrite Hr1. simpl.
    rewrite length_app in Hr2. simpl in Hr2. rewrite Hr2.
    split; [done|]. by rewrite <- app_assoc in Hw2.
Qed.

Lemma emit_spec c wv fv wi fi vs ixs :
  cursor_at c wv fv wi fi -> length vs <= fv -> length ixs <= fi ->
  exists c',
    emit c vs ixs = Some c' /\
    cursor_at c' (wv ++ vs) (fv - length vs) (wi ++ ixs) (fi - length ixs).
Proof.
  intros (Hv & Hcv & Hi & Hci) Hlv Hli. unfold emit.
  destruct (store_from_written _ _ _ vs Hv Hlv) as (rv & Hrv & Hwv).
  destruct (store_from_written _ _ _ ixs Hi Hli) as (ri & Hri & Hwi).
  rewrite Hcv, Hrv, Hci. simpl. rewrite Hri. simpl.
  eexists. split; [reflexivity|].
  unfold cursor_at. simpl. rewrite !length_app. done.
Qed.

Lemma emit_advances c vs ixs c' :
  emit c vs ixs = Some c' ->
  cur_v c' = cur_v c + length vs /\ cur_i c' = cur_i c + length ixs.
Proof.
  unfold emit. intros H.
  destruct (store_from (verts c) (cur_v c) vs); [|done]. simpl in H.
  destruct (store_from (idxs c) (cur_i c) ixs); [|done]. simpl in H.
  by injection H as <-.
Qed.

Lemma corner_vertices_length sega segb :
  length (corner_vertices sega segb) = 4.
Proof. done. Qed.

Lemma group_vertices_length segments fanPt a :
  length (group_vertices segments fanPt a) =
  4 + edge_vertices
        (fType (seg_at segments ((a + 1) `mod` length segments))).
Proof.
  unfold group_vertices. rewrite length_app.
  by destruct (fType (seg_at segments _)).
Qed.

Lemma group_indices_length segments a v :
  length (group_indices segments a v) =
  6 + edge_indices
        (fType (seg_at segments ((a + 1) `mod` length segments))).
Proof.
  unfold group_indices. rewrite length_app.
  by destruct (fType (seg_at segments _)).
Qed.

Lemma group_indices_bound segments a v :
  Forall (fun x => x < v + (4 + edge_vertices
            (fType (seg_at segments ((a + 1) `mod` length segments)))))
         (group_indices segments a v).
Proof.
  unfold group_indices.
  destruct (fType (seg_at segments _)); simpl;
    repeat (apply Forall_cons; split;
            [eapply Nat.le_lt_trans; [apply to_uint16_le|lia]|]);
    apply Forall_nil_2.
Qed.

Lemma create_step_spec segments fanPt a c wv fv wi fi :
  cursor_at c wv fv wi fi ->
  4 + edge_vertices (fType (seg_at segments ((a + 1) `mod` length segments)))
    <= fv ->
  6 + edge_indices (fType (seg_at segments ((a + 1) `mod` length segments)))
    <= fi ->
  exists c',
    create_step segments fanPt a c = Some c' /\
    cursor_at c' (wv ++ group_vertices segments fanPt a)
      (fv - (4 + edge_vertices
                   (fType (seg_at segments ((a + 1) `mod` length segments)))))
      (wi ++ group_indices segments a (length wv))
      (fi - (6 + edge_indices
                   (fType (seg_at segments ((a + 1) `mod` length segments))))).
Proof.
  intros Hc Hv Hi. unfold create_step, group_vertices, group_indices.
  set (sega := seg_at segments a).
  set (segb := seg_at segments ((a + 1) `mod` length segments)) in *.
  assert (cur_v c = length wv) as Hcv by apply Hc. rewrite Hcv.
  destruct (emit_spec c wv fv wi fi (corner_vertices sega segb)
                      (corner_indices (length wv)) Hc) as (c1 & Hc1 & Hat1);
    [simpl; lia..|].
  rewrite Hc1. simpl.
  assert (cur_v c1 = length wv + 4) as Hcv1.
  { destruct Hat1 as (_ & -> & _). by rewrite length_app. }
  rewrite Hcv1.
  destruct (fType segb) eqn:Ht; simpl in Hv, Hi.
  - destruct (emit_spec c1 _ _ _ _ (line_vertices sega segb fanPt)
                        (line_indices (length wv + 4)) Hat1)
      as (c2 & Hc2 & Hat2); [simpl; lia..|].
    exists c2. split; [done|]. simpl in Hat2.
    rewrite <- !app_assoc in Hat2.
    replace (fv - 4 - 5) with (fv - (4 + 5)) in Hat2 by lia.
    replace (fi - 6 - 9) with (fi - (6 + 9)) in Hat2 by lia. done.
  - destruct (emit_spec c1 _ _ _ _ (quad_vertices sega segb fanPt)
                        (quad_indices (length wv + 4)) Hat1)
      as (c2 & Hc2 & Hat2); [simpl; lia..|].
    exists c2. split; [done|]. simpl in Hat2.
    rewrite <- !app_assoc in Hat2.
    replace (fv - 4 - 6) with (fv - (4 + 6)) in Hat2 by lia.
    replace (fi - 6 - 12) with (fi - (6 + 12)) in Hat2 by lia. done.
Qed.

Lemma create_step_advances segments fanPt a c c' :
  create_step segments fanPt a c = Some c' ->
  cur_v c < cur_v c' /\ cur_i c < cur_i c'.
Proof.
  unfold create_step. intros H.
  destruct (emit c _ _) as [c1|] eqn:H1; [|done]. simpl in H.
  apply emit_advances in H1. simpl in H1.
  destruct (fType (seg_at segments _));
    apply emit_advances in H; simpl in H; lia.
Qed.

Lemma mesh_vertices_length segments fanPt n a :
  length (mesh_vertices segments fanPt n a) =
  4 * n + edge_sizes edge_vertices segments n a.
Proof.
  revert a. induction n as [|n IH]; intros a; [done|].
  cbn [mesh_vertices edge_sizes].
  rewrite length_app, group_vertices_length, IH. lia.
Qed.

Lemma mesh_indices_length segments n a v :
  length (mesh_indices segments n a v) =
  6 * n + edge_sizes edge_indices segments n a.
Proof.
  revert a v. induction n as [|n IH]; intros a v; [done|].
  cbn [mesh_indices edge_sizes]. cbv zeta.
  rewrite length_app, group_indices_length, IH. lia.
Qed.

Lemma mesh_indices_bound segments n a v :
  Forall (fun x => x < v + (4 * n + edge_sizes edge_vertices segments n a))
         (mesh_indices segments n a v).
Proof.
  revert a v. induction n as [|n IH]; intros a v; [apply Forall_nil_2|].
  cbn [mesh_indices edge_sizes]. cbv zeta. apply Forall_app. split.
  - eapply Forall_impl; [apply group_indices_bound|].
    simpl. intros x Hx. lia.
  - eapply Forall_impl; [apply IH|]. simpl. intros x Hx. lia.
Qed.

Lemma create_loop_spec segments fanPt n a c wv fv wi fi :
  cursor_at c wv fv wi fi ->
  4 * n + edge_sizes edge_vertices segments n a <= fv ->
  6 * n + edge_sizes edge_indices segments n a <= fi ->
  exists c',
    create_loop n a segments fanPt c = Some c' /\
    cursor_at c' (wv ++ mesh_vertices segments fanPt n a)
      (fv - (4 * n + edge_sizes edge_vertices segments n a))
      (wi ++ mesh_indices segments n a (length wv))
      (fi - (6 * n + edge_sizes edge_indices segments n a)).
Proof.
  revert a c wv fv wi fi.
  induction n as [|n IH]; intros a c wv fv wi fi Hc Hv Hi.
  - exists c. simpl. rewrite !app_nil_r, !Nat.sub_0_r. done.
  - cbn [edge_sizes] in Hv, Hi.
    destruct (create_step_spec segments fanPt a c wv fv wi fi Hc)
      as (c1 & Hc1 & Hat1); [lia..|].
    destruct (IH (a + 1) c1 _ _ _ _ Hat1) as (c2 & Hc2 & Hat2); [lia..|].
    exists c2. cbn [create_loop]. rewrite Hc1. simpl. split; [done|].
    cbn [mesh_vertices mesh_indices edge_sizes]. cbv zeta.
    rewrite length_app, group_vertices_length in Hat2.
    rewrite <- !app_assoc in Hat2.
    match goal with
    | H : cursor_at c2 ?w1 ?f1 ?w2 ?f2 |- cursor_at c2 ?w1' ?f1' ?w2' ?f2' =>
        replace f1' with f1 by lia; replace f2' with f2 by lia
    end.
    done.
Qed.

Lemma compute_vectors_length segments dir :
  length (vec_segments (compute_vectors segments dir)) = length segments.
Proof. apply shape_length, compute_vectors_shape. Qed.

(** The mesh [create_vertices] leaves in regions of the sizes that
    [compute_vectors] computed: every cell written, group after group. *)
Lemma create_vertices_mesh segments dir :
  let vecs := compute_vectors segments dir in
  exists c,
    create_vertices (vec_segments vecs) (vec_fanPt vecs)
                    (reserved (vec_vCount vecs)) (reserved (vec_iCount vecs))
      = Some c /\
    cursor_at c
      (mesh_vertices (vec_segments vecs) (vec_fanPt vecs)
                     (length segments) 0) 0
      (mesh_indices (vec_segments vecs) (length segments) 0 0) 0 /\
    length (mesh_vertices (vec_segments vecs) (vec_fanPt vecs)
                          (length segments) 0) = vec_vCount vecs /\
    length (mesh_indices (vec_segments vecs) (length segments) 0 0)
      = vec_iCount vecs.
Proof.
  intros vecs.
  pose proof (compute_vectors_shape segments dir) as Hsh. fold vecs in Hsh.
  pose proof (compute_vectors_counts segments dir) as [Hv Hi].
  fold vecs in Hv, Hi.
  pose proof (compute_vectors_length segments dir) as Hlen. fold vecs in Hlen.
  rewrite <- (edge_sizes_shape edge_vertices _ _ _ _ Hsh) in Hv.
  rewrite <- (edge_sizes_shape edge_indices _ _ _ _ Hsh) in Hi.
  unfold create_vertices. rewrite Hlen.
  destruct (create_loop_spec (vec_segments vecs) (vec_fanPt vecs)
              (length segments) 0
              (mkCursor (reserved (vec_vCount vecs))
                        (reserved (vec_iCount vecs)) 0 0)
              [] (vec_vCount vecs) [] (vec_iCount vecs))
    as (c & Hc & Hat); [|lia..|].
  { repeat split; apply reserved_written. }
  exists c. split; [done|].
  rewrite mesh_vertices_length, mesh_indices_length.
  split; [|lia].
  simpl in Hat.
  replace (vec_vCount vecs - _) with 0 in Hat by lia.
  replace (vec_iCount vecs - _) with 0 in Hat by lia.
  done.
Qed.

(** C9.  In regions of the sizes that [compute_vectors] computed,
    [create_vertices] stores exactly at the positions 0, 1, ..., vCount - 1
    of the vertex region and 0, 1, ..., iCount - 1 of the index region, in
    this order and never outside; each turn of its loop moves both cursors
    forward, and they end at vCount and iCount; every cell holds a value
    afterwards, and every stored index is below vCount. *)
Theorem create_vertices_fills_reservation
    (segments : list Segment) (dir : Direction) :
  let vecs := compute_vectors segments dir in
  exists c wv wi,
    create_vertices (vec_segments vecs) (vec_fanPt vecs)
                    (reserved (vec_vCount vecs)) (reserved (vec_iCount vecs))
      = Some c /\
    cur_v c = vec_vCount vecs /\ cur_i c = vec_iCount vecs /\
    stores (verts c) = seq 0 (vec_vCount vecs) /\
    stores (idxs c) = seq 0 (vec_iCount vecs) /\
    cells (verts c) = Some <$> wv /\ length wv = vec_vCount vecs /\
    cells (idxs c) = Some <$> wi /\ length wi = vec_iCount vecs /\
    Forall (fun x => x < vec_vCount vecs) wi /\
    (forall a c0 c1,
       create_step (vec_segments vecs) (vec_fanPt vecs) a c0 = Some c1 ->
       cur_v c0 < cur_v c1 /\ cur_i c0 < cur_i c1).
Proof.
  intros vecs.
  destruct (create_vertices_mesh segments dir)
    as (c & Hc & ((Hcv & Hsv) & Hv & (Hci & Hsi) & Hi) & Hlv & Hli).
  fold vecs in Hc, Hcv, Hsv, Hv, Hci, Hsi, Hi, Hlv, Hli.
  exists c, (mesh_vertices (vec_segments vecs) (vec_fanPt vecs)
                           (length segments) 0),
         (mesh_indices (vec_segments vecs) (length segments) 0 0).
  rewrite app_nil_r in Hcv, Hci.
  repeat split; try congruence.
  - pose proof (mesh_indices_bound (vec_segments vecs) (length segments) 0 0)
      as Hb.
    rewrite <- mesh_vertices_length with (fanPt := vec_fanPt vecs) in Hb.
    by rewrite Hlv in Hb.
  - eapply create_step_advances; eauto.
  - eapply create_step_advances; eauto.
Qed.

(** C8 (as amended).  Every vertex of a corner wedge and of a line edge
    group carries minus one in both signed-distance scalars; the three
    offset vertices of a quadratic edge group carry minus the largest scalar
    over one hundred in both; and the mesh consists of such groups only. *)
Theorem distance_sentinels (segments : list Segment) (dir : Direction) :
  let vecs := compute_vectors segments dir in
  (exists c,
     create_vertices (vec_segments vecs) (vec_fanPt vecs)
                     (reserved (vec_vCount vecs)) (reserved (vec_iCount vecs))
       = Some c /\
     cells (verts c) =
       Some <$> mesh_vertices (vec_segments vecs) (vec_fanPt vecs)
                              (length segments) 0) /\
  (forall sega segb,
     Forall (fun v => fD0 v = (- SK_Scalar1)%sc /\ fD1 v = (- SK_Scalar1)%sc)
            (corner_vertices sega segb)) /\
  (forall sega segb fanPt,
     Forall (fun v => fD0 v = (- SK_Scalar1)%sc /\ fD1 v = (- SK_Scalar1)%sc)
            (line_vertices sega segb fanPt)) /\
  (forall sega segb fanPt,
     Forall (fun v => fD0 v = (- GR_ScalarMax / sofint 100)%sc /\
                      fD1 v = (- GR_ScalarMax / sofint 100)%sc)
            (drop 3 (quad_vertices sega segb fanPt))).
Proof.
  intros vecs. split.
  - destruct (create_vertices_mesh segments dir)
      as (c & Hc & ((Hcv & _) & _) & _).
    exists c. split; [done|]. fold vecs in Hcv. by rewrite app_nil_r in Hcv.
  - repeat split; intros; repeat constructor.
Qed.

(** ** The sizing pass in closed form *)

Lemma compute_vectors_sizes segments dir :
  vec_vCount (compute_vectors segments dir) =
    5 * count_type Segment_kLine segments
    + 6 * count_type Segment_kQuad segments + 4 * length segments /\
  vec_iCount (compute_vectors segments dir) =
    9 * count_type Segment_kLine segments
    + 12 * count_type Segment_kQuad segments + 6 * length segments.
Proof.
  destruct (compute_vectors_counts segments dir) as [-> ->].
  rewrite !edge_sizes_total, !sum_by_type. simpl edge_vertices.
  simpl edge_indices. lia.
Qed.

Lemma count_type_lines (pts : list GrPoint) :
  count_type Segment_kLine (map line_segment pts) = length pts /\
  count_type Segment_kQuad (map line_segment pts) = 0.
Proof.
  unfold count_type. induction pts as [|p pts [IH1 IH2]]; [done|].
  simpl. rewrite !filter_cons. simpl. by rewrite IH1, IH2.
Qed.

Lemma polygon_sizes (pts : list GrPoint) dir :
  vec_vCount (compute_vectors (map line_segment pts) dir) = 9 * length pts /\
  vec_iCount (compute_vectors (map line_segment pts) dir) = 15 * length pts.
Proof.
  destruct (compute_vectors_sizes (map line_segment pts) dir) as [-> ->].
  destruct (count_type_lines pts) as [-> ->]. rewrite length_map. lia.
Qed.

(** ** Winding *)


Lemma wraps_onto n k : k < n -> exists a, a < n /\ k = (a + 1) `mod` n.
Proof.
  intros H. destruct k as [|k].
  - exists (n - 1). split; [lia|].
    replace (n - 1 + 1) with n by lia. by rewrite Nat.Div0.mod_same.
  - exists k. split; [lia|]. rewrite Nat.mod_small; lia.
Qed.

Section Winding.
Context {Neg : ScalarNeg Sc}.





End Winding.

(** ** The fan point *)

Lemma endpoints_lookup (segments : list Segment) j :
  j < length segments ->
  map endPt segments !! j = Some (endPt (seg_at segments j)).
Proof.
  intros H. rewrite list_lookup_fmap.
  destruct (lookup_lt_is_Some_2 segments j H) as [s Hs].
  by rewrite Hs, (seg_at_lookup _ _ _ Hs).
Qed.


Lemma wrapping_pairs_lookup (segments : list Segment) i :
  i < length segments ->
  wrapping_pairs (map endPt segments) !! i =
  Some (endPt (seg_at segments i),
        endPt (seg_at segments ((i + 1) `mod` length segments))).
Proof.
  intros H. destruct segments as [|s0 rest]; [simpl in H; lia|].
  change (map endPt (s0 :: rest)) with (endPt s0 :: map endPt rest).
  unfold wrapping_pairs. rewrite lookup_zip_with.
  change (endPt s0 :: map endPt rest) with (map endPt (s0 :: rest)).
  rewrite (endpoints_lookup _ _ H). simpl in H. simpl "≫=".
  destruct (decide (i = length rest)) as [->|Hne].
  - rewrite lookup_app_r by (rewrite length_map; lia).
    rewrite length_map, Nat.sub_diag. simpl "!!".
    replace (length rest + 1) with (length (s0 :: rest)) by (simpl; lia).
    by rewrite Nat.Div0.mod_same.
  - rewrite lookup_app_l by (rewrite length_map; lia).
    rewrite Nat.mod_small by (simpl; lia).
    assert (i < length rest) as Hi by lia.
    rewrite (endpoints_lookup rest i Hi). simpl.
    replace (i + 1) with (S i) by lia. done.
Qed.

Lemma center_of_mass_sum_fold (segments : list Segment) n i area center :
  i + n <= length segments ->
  center_of_mass_sum segments n i area center =
  (fold_left (fun area pr => (area + shoelace_term pr)%sc)
             (take n (drop i (wrapping_pairs (map endPt segments)))) area,
   fold_left
     (fun c pr =>
        mkPoint (fX c + (fX pr.1 + fX pr.2) * shoelace_term pr)%sc
                (fY c + (fY pr.1 + fY pr.2) * shoelace_term pr)%sc)
     (take n (drop i (wrapping_pairs (map endPt segments)))) center).
Proof.
  revert i area center.
  induction n as [|n IH]; intros i area center H; [done|].
  cbn [center_of_mass_sum]. cbv zeta.
  rewrite IH by lia.
  rewrite (drop_S _ _ _ (wrapping_pairs_lookup segments i ltac:(lia))).
  replace (i + 1) with (S i) by lia. done.
Qed.

Lemma center_of_mass_avg_fold (segments : list Segment) n i avg :
  i + n <= length segments ->
  center_of_mass_avg segments n i avg =
  fold_left (fun avg pt => pt_add avg pt)
            (take n (drop i (map endPt segments))) avg.
Proof.
  revert i avg. induction n as [|n IH]; intros i avg H; [done|].
  cbn [center_of_mass_avg]. cbv zeta.
  rewrite IH by lia.
  rewrite (drop_S _ _ _ (endpoints_lookup segments i ltac:(lia))).
  replace (i + 1) with (S i) by lia. done.
Qed.



(** X3.  [drawPath] never stores outside the regions it reserved: on every
    renderer and stage mask it returns with a list of calls. *)
Theorem drawPath_is_defined (r : GrAAConvexPathRenderer) (stageMask : Z) :
  exists calls, drawPath r stageMask = Some calls.
Proof.
  unfold drawPath. destruct (isEmpty (fPath r)); [eauto|]. cbv zeta.
  unfold get_segments.
  destruct (isDegenerate _); [eauto|].
  destruct (negb (reserveVertexSpace _ _ _)); [eauto|].
  destruct (negb (reserveIndexSpace _ _)); [eauto|].
  match goal with
  | |- context [compute_vectors ?s ?d] =>
      destruct (create_vertices_mesh s d) as (c & Hc & _)
  end.
  cbv zeta in Hc. rewrite Hc. simpl. eauto.
Qed.

End Properties.

(** ** Single precision *)

Lemma SFopp_involutive (x : spec_float) : SFopp (SFopp x) = x.
Proof. destruct x; simpl; by rewrite ?negb_involutive. Qed.

#[export] Instance F32_ScalarNeg : ScalarNeg F32_Scalar := SFopp_involutive.

Import Scenario.

(** C2.  The sizing pass counts 5 vertices and 9 indices for every line
    segment, 6 and 12 for every quadratic segment, and 4 and 6 for every
    junction; a polygon of N line segments therefore gets 9 N vertices and
    15 N indices; and the unit square gets 36 vertices, 60 indices and the
    fan point (1/2, 1/2), and its mesh holds 36 written vertices and 60
    written indices. *)
Theorem sizing_pass_counts :
  (forall (Sc : Scalar) (Ext : Externals Sc)
          (segments : list Segment) (dir : Direction),
     vec_vCount (compute_vectors segments dir) =
       5 * count_type Segment_kLine segments
       + 6 * count_type Segment_kQuad segments + 4 * length segments /\
     vec_iCount (compute_vectors segments dir) =
       9 * count_type Segment_kLine segments
       + 12 * count_type Segment_kQuad segments + 6 * length segments) /\
  (forall (Sc : Scalar) (Ext : Externals Sc)
          (corners : list GrPoint) (dir : Direction),
     vec_vCount (compute_vectors (map line_segment corners) dir) =
       9 * length corners /\
     vec_iCount (compute_vectors (map line_segment corners) dir) =
       15 * length corners) /\
  (forall dir,
     (fun vecs => (vec_vCount vecs, vec_iCount vecs, vec_fanPt vecs))
       <$> get_segments (unit_square dir) =
     Some (36, 60, mkPoint half half)) /\
  F32.to_Q half = Some (1 # 2)%Q /\
  (forall dir, written_cells (unit_square dir) = Some (36, 60)).
Proof.
  split; [intros; apply compute_vectors_sizes|].
  split; [intros; apply polygon_sizes|].
  split; [intros []; reflexivity|].
  split; [done|].
  intros []; vm_compute; reflexivity.
Qed.



(** C3 fails as stated: on the line through (0,0) and (1,0) the point (1,1)
    has the signed distance -1, which does not exceed the tolerance, yet the
    classifier moves to NonDegenerate. *)
Lemma negative_side_leaves_the_line :
  let d := fold_left update_degenerate_test [pt 0 0; pt 1 0]
                     DegenerateTestData_new in
  fStage d = kLine /\
  signed_distance (fLineNormal d) (fLineC d) (pt 1 1) = SFopp (F32.of_Z 1) /\
  (signed_distance (fLineNormal d) (fLineC d) (pt 1 1) >? TOL)%sc = false /\
  fStage (update_degenerate_test d (pt 1 1)) = kNonDegenerate.
Proof. cbv zeta. repeat split; vm_compute; reflexivity. Qed.

(** C4 fails on the code: the square of side 1.5e19 has finite corners and
    is classified as non-degenerate, and both coordinates of its fan point
    are NaN, against the assertion that closes [center_of_mass]. *)
Theorem huge_square_fan_point_is_nan :
  forallb is_finite_point (fed_points (iter huge_square)) = true /\
  isDegenerate (classify (fed_points (iter huge_square))) = false /\
  (fun vecs => (fX (vec_fanPt vecs), fY (vec_fanPt vecs)))
    <$> get_segments huge_square = Some (S754_nan, S754_nan) /\
  (fun vecs => center_is_a_number (vec_fanPt vecs))
    <$> get_segments huge_square = Some false.
Proof. repeat split; vm_compute; reflexivity. Qed.


(** C7 at the unit square drawn to a target without index space. *)
Lemma unit_square_without_index_space :
  let r := renderer (unit_square kCCW_Direction) no_index_space in
  let vecs := compute_vectors unit_square_segments kCCW_Direction in
  exists pre,
    drawPath r 0 =
      Some (pre ++
            [Call_reserveVertexSpace (layout_of 0) (vec_vCount vecs);
             Call_reserveIndexSpace (vec_iCount vecs);
             Call_resetVertexSource;
             Call_AutoStateRestore_restore]) /\
    forallb is_state_call pre = true.
Proof.
  intros r vecs.
  apply (proj1 (failed_reservation_releases r 0 vecs eq_refl eq_refl));
    reflexivity.
Defined.

(** C8 fails as stated: in the mesh of the rounded path the vertex at
    position 1, an offset vertex of a corner wedge, carries -1 in both
    distance scalars, and the vertex at position 7, an offset vertex of the
    quadratic edge, carries -FLT_MAX/100; the two values differ. *)
Lemma sentinels_differ :
  distance_fields_at rounded 1 = Some (SFopp (F32.of_Z 1), SFopp (F32.of_Z 1))
  /\
  distance_fields_at rounded 7 =
    Some (F32.div (SFopp F32.max_float) (F32.of_Z 100),
          F32.div (SFopp F32.max_float) (F32.of_Z 100)) /\
  SFopp (F32.of_Z 1) <> F32.div (SFopp F32.max_float) (F32.of_Z 100).
Proof.
  split; [vm_compute; reflexivity|]. split; [vm_compute; reflexivity|].
  vm_compute. discriminate.
Qed.

(** In single precision a number and its negation add up to a zero or to
    NaN, neither of which exceeds the tolerance. *)
Lemma F32_cancel (x : spec_float) :
  (SkScalarAbs (x + - x) >? TOL)%sc = false.
Proof.
  replace (@TOL F32_Scalar) with (S754_finite false 8388608 (-27))
    by (vm_compute; reflexivity).
  destruct x as [s|s| |s m e]; try (by destruct s).
  - done.
  - simpl. unfold F32.add, SFadd. simpl SFopp. cbv zeta.
    rewrite Z.min_id. unfold shl_align. rewrite Z.sub_diag. simpl fst.
    replace (cond_Zopp s (Z.pos m) + cond_Zopp (negb s) (Z.pos m))%Z
      with 0%Z by (destruct s; simpl; lia).
    done.
Qed.

(** X4.  In single precision every path of a single point and every closed
    path of a single segment is rejected by [get_segments]. *)
Theorem single_segment_path_is_rejected
    (p0 p1 : @GrPoint F32_Scalar) (empty convex : bool) (dir : Direction) :
  get_segments (mkPath [kMove_PathCmd p0; kClose_PathCmd] empty convex dir)
    = None /\
  get_segments
    (mkPath [kMove_PathCmd p0; kLine_PathCmd p0 p1; kLine_PathCmd p1 p0;
             kClose_PathCmd] empty convex dir) = None.
Proof.
  split; apply get_segments_degenerate; [done|].
  unfold fed_points, hugs_reference_line. simpl concat. cbn [first_far].
  destruct (distanceToSqd p1 p0 >? TOL_SQD)%sc.
  - cbn [forallb]. unfold off_line, signed_distance, line_through.
    cbn [fst snd]. by rewrite F32_cancel.
  - by destruct (distanceToSqd p0 p0 >? TOL_SQD)%sc.
Qed.

(** * Further properties *)

Section Further.
Context {Sc : Scalar} {Ext : Externals Sc}.

(** ** What the decoder stores *)

Lemma quad_at_drop (quads : list GrPoint) q j :
  quad_at quads (q + j) = default indeterminate (drop q quads !! j).
Proof. unfold quad_at. by rewrite lookup_drop. Qed.

Lemma push_quads_segments n q quads d :
  length quads <= q + 3 * n ->
  segments_of (push_quads n q quads d) =
  segments_of d ++ quads_of (drop q quads).
Proof.
  revert q d. induction n as [|n IH]; intros q d H.
  - simpl. rewrite drop_ge by lia. by rewrite app_nil_r.
  - cbn [push_quads]. case_decide as Hq.
    + rewrite IH by lia. cbn [push_quad segments_of].
      rewrite <- app_assoc. f_equal.
      rewrite !quad_at_drop.
      replace (drop (q + 3) quads) with (drop 3 (drop q quads))
        by (rewrite drop_drop; f_equal; lia).
      assert (0 < length (drop q quads)) as Hl
        by (rewrite length_drop; lia).
      destruct (drop q quads) as [|x0 [|x1 [|x2 rest]]];
        [simpl in Hl; lia|done..].
    + rewrite drop_ge by lia. by rewrite app_nil_r.
Qed.

Lemma decode_item_segments d item :
  segments_of (decode_item d item) = segments_of d ++ item_segments item.
Proof.
  destruct item; simpl; rewrite ?app_nil_r; try done.
  unfold flatten. rewrite push_quads_segments by lia. done.
Qed.

Lemma decode_segments_from items d :
  segments_of (decode items d) = segments_of d ++ path_segments items.
Proof.
  revert d. induction items as [|item items IH]; intros d.
  - simpl. by rewrite app_nil_r.
  - cbn [decode]. rewrite IH, decode_item_segments.
    unfold path_segments. simpl. by rewrite app_assoc.
Qed.

(** X5.  Decoding appends to the array, in path order, one line segment
    holding the end point for every line item, one quadratic segment holding
    the control and end point for every quadratic item, and for every cubic
    one quadratic segment per triple of the flattener's output, holding the
    second and third point of the triple; moves and closes append nothing,
    and the first point of an item is stored nowhere. *)
Theorem decode_appends_item_segments
    (items : list PathItem) (segments : list Segment) :
  segments_of (decode items (Decoder_new segments)) =
    segments ++ concat (map item_segments items) /\
  (forall p0 p0' p1, item_segments (kLine_PathCmd p0 p1) =
                     item_segments (kLine_PathCmd p0' p1)) /\
  (forall p0 p0' p1 p2, item_segments (kQuadratic_PathCmd p0 p1 p2) =
                        item_segments (kQuadratic_PathCmd p0' p1 p2)) /\
  (forall quads, length (quads_of quads) = (length quads + 2) / 3).
Proof.
  split; [apply decode_segments_from|]. split; [done|]. split; [done|].
  intros quads.
  assert (forall n (l : list GrPoint), length l < n ->
            length (quads_of l) = (length l + 2) / 3) as H.
  { induction n as [|n IH]; intros l Hl; [lia|].
    destruct l as [|x0 [|x1 [|x2 rest]]]; try done.
    cbn [quads_of length]. rewrite IH by (simpl in Hl; lia).
    replace (S (S (S (length rest))) + 2) with (length rest + 2 + 1 * 3)
      by lia.
    rewrite Nat.div_add by lia. lia. }
  apply (H (S (length quads))). lia.
Qed.

(** ** The size of the mesh of a path *)

Lemma count_type_app t (l1 l2 : list Segment) :
  count_type t (l1 ++ l2) = count_type t l1 + count_type t l2.
Proof. unfold count_type. by rewrite filter_app, length_app. Qed.

Lemma count_type_total (l : list Segment) :
  length l = count_type Segment_kLine l + count_type Segment_kQuad l.
Proof.
  unfold count_type. induction l as [|s l IH]; [done|].
  rewrite !filter_cons. cbn [length].
  destruct (fType s); simpl; lia.
Qed.

Lemma quads_of_types (quads : list GrPoint) :
  count_type Segment_kLine (quads_of quads) = 0 /\
  count_type Segment_kQuad (quads_of quads) = length (quads_of quads).
Proof.
  assert (forall n (l : list GrPoint), length l < n ->
            count_type Segment_kLine (quads_of l) = 0 /\
            count_type Segment_kQuad (quads_of l) = length (quads_of l))
    as H.
  { induction n as [|n IH]; intros l Hl; [lia|].
    destruct l as [|x0 [|x1 [|x2 rest]]]; try done.
    cbn [quads_of].
    destruct (IH rest) as [H1 H2]; [simpl in Hl; lia|].
    unfold count_type in *. rewrite !filter_cons. simpl.
    by rewrite H1, H2. }
  apply (H (S (length quads))). lia.
Qed.

Lemma path_segments_counts (items : list PathItem) :
  count_type Segment_kLine (path_segments items) =
    count_items is_line_item items /\
  count_type Segment_kQuad (path_segments items) =
    count_items is_quad_item items + cubic_quads items.
Proof.
  unfold path_segments, count_items, cubic_quads.
  induction items as [|item items [IH1 IH2]]; [done|].
  cbn [map concat List.filter sum_list_with].
  rewrite !count_type_app, IH1, IH2.
  set (sm := sum_list_with _ items). clearbody sm.
  destruct item; cbn [item_segments is_line_item is_quad_item length].
  4: { destruct (quads_of_types (convertCubicToQuads p0 p1 p2 p3 SK_Scalar1))
         as [-> ->].
       split; lia. }
  all: unfold count_type; rewrite ?filter_cons, ?filter_nil; simpl;
    split; lia.
Qed.

(** X6.  When [get_segments] accepts a path, the mesh it sizes has 9
    vertices and 15 indices for every line item of the path and 10 vertices
    and 18 indices for every quadratic, counting the quadratics its cubics
    are flattened to; the segment array has one entry for each of them. *)
Theorem path_mesh_size (path : SkPath) (vecs : Vectors) :
  get_segments path = Some vecs ->
  let lines := count_items is_line_item (iter path) in
  let quads := count_items is_quad_item (iter path)
               + cubic_quads (iter path) in
  length (vec_segments vecs) = lines + quads /\
  vec_vCount vecs = 9 * lines + 10 * quads /\
  vec_iCount vecs = 15 * lines + 18 * quads.
Proof.
  unfold get_segments. destruct (isDegenerate _); [done|].
  intros [= <-]. cbv zeta.
  rewrite compute_vectors_length.
  destruct (compute_vectors_sizes
              (segments_of (decode (iter path) (Decoder_new [])))
              (cheapComputeDirection path)) as [-> ->].
  rewrite decode_segments_from. cbn [Decoder_new segments_of app].
  destruct (path_segments_counts (iter path)) as [H1 H2].
  rewrite H1, H2.
  rewrite (count_type_total (path_segments (iter path))), H1, H2. lia.
Qed.

(** ** The classifier over a sequence of points *)

Lemma anchor_kept pts d :
  fStage d <> kInitial ->
  fStage (fold_left update_degenerate_test pts d) <> kInitial /\
  fFirstPoint (fold_left update_degenerate_test pts d) = fFirstPoint d.
Proof.
  revert d. induction pts as [|p pts IH]; intros d H; [done|].
  cbn [fold_left].
  assert (fStage (update_degenerate_test d p) <> kInitial /\
          fFirstPoint (update_degenerate_test d p) = fFirstPoint d)
    as [Hn Hf].
  { unfold update_degenerate_test.
    destruct (fStage d) eqn:Hs; [done| | |];
      try destruct (_ >? _)%sc; cbn; rewrite ?Hs; done. }
  destruct (IH _ Hn) as [H1 H2]. split; [done|]. by rewrite H2.
Qed.

Lemma line_kept pts d :
  fStage d = kLine \/ fStage d = kNonDegenerate ->
  fLineNormal (fold_left update_degenerate_test pts d) = fLineNormal d /\
  fLineC (fold_left update_degenerate_test pts d) = fLineC d.
Proof.
  revert d. induction pts as [|p pts IH]; intros d H; [done|].
  cbn [fold_left].
  assert (update_degenerate_test d p = d \/
          update_degenerate_test d p =
            mkDegenerateTestData kNonDegenerate (fFirstPoint d)
                                 (fLineNormal d) (fLineC d)) as Hu.
  { unfold update_degenerate_test.
    destruct H as [-> | ->]; [|by left].
    destruct (_ >? _)%sc; [by right|by left]. }
  destruct Hu as [-> | ->]; [by apply IH|].
  by destruct (IH (mkDegenerateTestData kNonDegenerate (fFirstPoint d)
                     (fLineNormal d) (fLineC d))) as [-> ->]; [right|].
Qed.

(** X8.  Over a sequence of fed points the classifier keeps the first point
    as its anchor whatever follows; once it has derived a line it never
    changes the line; a sequence classified as non-degenerate stays so
    however it is continued; and no sequence of fewer than three points is
    non-degenerate. *)
Theorem classifier_over_sequences :
  (forall a rest, fFirstPoint (classify (a :: rest)) = a) /\
  (forall pts more,
     fStage (classify pts) = kLine \/ fStage (classify pts) = kNonDegenerate ->
     fLineNormal (classify (pts ++ more)) = fLineNormal (classify pts) /\
     fLineC (classify (pts ++ more)) = fLineC (classify pts)) /\
  (forall pts more,
     isDegenerate (classify pts) = false ->
     isDegenerate (classify (pts ++ more)) = false) /\
  (forall pts, length pts < 3 -> isDegenerate (classify pts) = true).
Proof.
  split; [|split; [|split]].
  - intros a rest. unfold classify. cbn [fold_left].
    by destruct (anchor_kept rest (update_degenerate_test
                                     DegenerateTestData_new a)) as [_ ->].
  - intros pts more H. unfold classify in *. rewrite fold_left_app.
    by apply line_kept.
  - intros pts more H. unfold classify in *. rewrite fold_left_app.
    rewrite absorbed; [done|].
    unfold isDegenerate in H. by destruct (fStage _).
  - intros [|a [|b [|c pts]]] H; try done; [|simpl in H; lia].
    unfold classify. cbn [fold_left].
    unfold update_degenerate_test at 1. cbn.
    by destruct (_ >? _)%sc.
Qed.

(** ** Normals and bisectors in closed form *)

Lemma prev_index_next n a : a < n -> prev_index n ((a + 1) `mod` n) = a.
Proof.
  intros H. unfold prev_index.
  destruct (decide (a + 1 = n)) as [<-|Hne].
  - rewrite Nat.Div0.mod_same. rewrite Nat.mod_small; lia.
  - rewrite (Nat.mod_small (a + 1)) by lia.
    replace (a + 1 + n - 1) with (a + 1 * n) by lia.
    rewrite Nat.Div0.mod_add. apply Nat.mod_small. lia.
Qed.

Lemma point_normals_expected side orig b segb prevPt :
  shape segb = shape (seg_at orig b) ->
  fNorms segb = expected_norms side orig b \/
    fNorms segb = fNorms (seg_at orig b) ->
  prevPt = endPt (seg_at orig (prev_index (length orig) b)) ->
  fNorms (point_normals side (countPoints segb) 0 prevPt segb) =
  expected_norms side orig b.
Proof.
  destruct segb as [t pts n m]. unfold shape. cbn [fType fPts fNorms].
  intros [= Ht Hp] Hn ->. unfold expected_norms in *.
  rewrite <- Ht, <- Hp in *. unfold countPoints. cbn [fType].
  destruct t; cbn; unfold edge_normal; [|done].
  f_equal. destruct Hn as [-> | ->]; done.
Qed.

Lemma normals_loop_closed side orig n a cur v i k :
  a + n <= length orig ->
  map shape cur = map shape orig ->
  (forall j, j < length orig ->
     fNorms (seg_at cur j) = expected_norms side orig j \/
     fNorms (seg_at cur j) = fNorms (seg_at orig j)) ->
  k < length orig ->
  fNorms (seg_at cur k) = expected_norms side orig k \/
    (exists a', a <= a' < a + n /\ k = (a' + 1) `mod` length orig) ->
  fNorms (seg_at (normals_loop side n a cur v i).1.1 k) =
  expected_norms side orig k.
Proof.
  revert a cur v i.
  induction n as [|n IH]; intros a cur v i Han Hsh Hall Hk Hor.
  - destruct Hor as [H|(a' & Ha & _)]; [done|lia].
  - cbn [normals_loop]. cbv zeta.
    pose proof (shape_length _ _ Hsh) as Hlen. rewrite Hlen.
    set (b := (a + 1) `mod` length orig) in *.
    assert (b < length orig) as Hb by (apply Nat.mod_upper_bound; lia).
    set (segb' := point_normals _ _ _ _ _).
    assert (fNorms segb' = expected_norms side orig b) as Hexp.
    { apply point_normals_expected.
      - apply shape_seg_at, Hsh.
      - by apply Hall.
      - unfold b. rewrite prev_index_next by lia.
        apply shape_endPt, shape_seg_at, Hsh. }
    assert (shape segb' = shape (seg_at cur b)) as Hsb
      by apply point_normals_shape.
    apply IH.
    + lia.
    + by rewrite shape_insert.
    + intros j Hj. destruct (decide (j = b)) as [->|Hne].
      * left. by rewrite seg_at_insert_eq by lia.
      * rewrite seg_at_insert_ne by done. by apply Hall.
    + done.
    + destruct (decide (k = b)) as [->|Hne].
      * left. by rewrite seg_at_insert_eq by lia.
      * rewrite seg_at_insert_ne by done.
        destruct Hor as [H|(a' & Ha & Hk')]; [by left|].
        right. exists a'. split; [|done].
        destruct (decide (a' = a)) as [->|]; [done|lia].
Qed.

Lemma frame_shape (l l' : list Segment) :
  map frame l = map frame l' -> map shape l = map shape l'.
Proof.
  intros H.
  assert (map (fun x : SegmentType * arr2 GrPoint * arr2 GrVec => x.1)
              (map frame l) =
          map (fun x : SegmentType * arr2 GrPoint * arr2 GrVec => x.1)
              (map frame l')) as H' by by rewrite H.
  by rewrite !map_map in H'.
Qed.

Lemma frame_endNorm s s' : frame s = frame s' -> endNorm s = endNorm s'.
Proof. unfold frame, endNorm. by intros [= -> _ ->]. Qed.

Lemma frame_fNorms s s' : frame s = frame s' -> fNorms s = fNorms s'.
Proof. unfold frame. by intros [= _ _ ->]. Qed.

Lemma mids_loop_closed orig n a cur v i k :
  a + n <= length orig ->
  map frame cur = map frame orig ->
  k < length orig ->
  fMid (seg_at cur k) = expected_mid orig k \/
    (exists a', a <= a' < a + n /\ k = (a' + 1) `mod` length orig) ->
  fMid (seg_at (mids_loop n a cur v i).1.1 k) = expected_mid orig k /\
  map frame (mids_loop n a cur v i).1.1 = map frame orig.
Proof.
  revert a cur v i.
  induction n as [|n IH]; intros a cur v i Han Hfr Hk Hor.
  - split; [|done]. destruct Hor as [H|(a' & Ha & _)]; [done|lia].
  - cbn [mids_loop]. cbv zeta.
    assert (length cur = length orig) as Hlen.
    { by rewrite <- (length_map frame cur), Hfr, length_map. }
    rewrite Hlen.
    set (b := (a + 1) `mod` length orig) in *.
    assert (b < length orig) as Hb by (apply Nat.mod_upper_bound; lia).
    set (segb' := set_fMid _ _).
    assert (fMid segb' = expected_mid orig b) as Hexp.
    { unfold segb', expected_mid. cbn [set_fMid fMid]. f_equal. f_equal.
      - f_equal. apply frame_fNorms.
        apply (view_seg_at frame cur orig b); [lia|done].
      - unfold b. rewrite prev_index_next by lia. apply frame_endNorm.
        apply (view_seg_at frame cur orig a); [lia|done]. }
    apply IH.
    + lia.
    + rewrite view_insert; [done|]. done.
    + done.
    + destruct (decide (k = b)) as [->|Hne].
      * left. by rewrite seg_at_insert_eq by lia.
      * rewrite seg_at_insert_ne by done.
        destruct Hor as [H|(a' & Ha & Hk')]; [by left|].
        right. exists a'. split; [|done].
        destruct (decide (a' = a)) as [->|]; [done|lia].
Qed.

Lemma mids_loop_frame n a segments v i :
  map frame (mids_loop n a segments v i).1.1 = map frame segments.
Proof.
  revert a segments v i.
  induction n as [|n IH]; intros a segments v i; [done|].
  cbn [mids_loop]. rewrite IH. by apply view_insert.
Qed.

Lemma compute_vectors_norms segments dir j :
  j < length segments ->
  fNorms (seg_at (vec_segments (compute_vectors segments dir)) j) =
  expected_norms (normSide_of dir) segments j.
Proof.
  intros Hj. unfold compute_vectors.
  pose proof (normals_loop_closed (normSide_of dir) segments
                (length segments) 0 segments 0 0 j (Nat.le_refl _) eq_refl
                (fun j _ => or_intror eq_refl) Hj) as Hnorm.
  pose proof (normals_loop_shape (normSide_of dir) (length segments) 0
                                 segments 0 0) as Hsh1.
  destruct (normals_loop _ _ _ _ _ _) as [[s1 v1] i1]. cbn [fst snd] in *.
  pose proof (mids_loop_frame (length segments) 0 s1 v1 i1) as Hfr.
  destruct (mids_loop _ _ s1 _ _) as [[s2 v2] i2]. cbn [fst snd] in *.
  cbn [vec_segments].
  assert (j < length s2) as Hj2.
  { rewrite <- (length_map frame s2), Hfr, length_map,
      (shape_length _ _ Hsh1). done. }
  rewrite (frame_fNorms _ _ (view_seg_at frame s2 s1 j Hj2 Hfr)).
  apply Hnorm. right. destruct (wraps_onto _ _ Hj) as (a & Ha & Hja).
  exists a. split; [lia|done].
Qed.

Lemma compute_vectors_mid segments dir k :
  k < length segments ->
  fMid (seg_at (vec_segments (compute_vectors segments dir)) k) =
  expected_mid (vec_segments (compute_vectors segments dir)) k.
Proof.
  intros Hk. unfold compute_vectors.
  pose proof (normals_loop_shape (normSide_of dir) (length segments) 0
                                 segments 0 0) as Hsh1.
  destruct (normals_loop _ _ _ _ _ _) as [[s1 v1] i1]. cbn [fst snd] in *.
  assert (length s1 = length segments) as Hl1 by by apply shape_length.
  pose proof (mids_loop_closed s1 (length segments) 0 s1 v1 i1 k
                ltac:(lia) eq_refl ltac:(lia)) as Hmid.
  pose proof (mids_loop_frame (length segments) 0 s1 v1 i1) as Hfr.
  destruct (mids_loop _ _ s1 _ _) as [[s2 v2] i2]. cbn [fst snd] in *.
  cbn [vec_segments].
  destruct Hmid as [Hm _].
  { right. destruct (wraps_onto _ _ Hk) as (a & Ha & Hka).
    exists a. split; [lia|]. by rewrite Hl1. }
  rewrite Hm. unfold expected_mid.
  assert (length s2 = length s1) as Hl2.
  { by rewrite <- (length_map frame s2), Hfr, length_map. }
  rewrite Hl2.
  assert (prev_index (length s1) k < length s2) as Hp2.
  { rewrite Hl2. apply Nat.mod_upper_bound. lia. }
  rewrite (frame_endNorm _ _ (view_seg_at frame s2 s1 _ Hp2 Hfr)).
  rewrite (frame_fNorms _ _ (view_seg_at frame s2 s1 k ltac:(lia) Hfr)).
  done.
Qed.

(** X7.  [compute_vectors] changes neither the length of the array nor the
    type or the points of a segment.  It leaves in every segment the normal
    of the edge from the end point of the segment before it (cyclically) to
    its first point, in a quadratic also the normal of the edge from its
    first to its second point (the second slot of a line is not written),
    each the normalised difference rotated to the side of the direction;
    and as bisector the normalised sum of its first normal and the last
    normal of the segment before it. *)
Theorem compute_vectors_closed_form
    (segments : list Segment) (dir : Direction) (k : nat) :
  k < length segments ->
  let n := length segments in
  let out := vec_segments (compute_vectors segments dir) in
  let s := seg_at segments k in
  let s' := seg_at out k in
  length out = n /\
  fType s' = fType s /\
  fPts s' = fPts s /\
  arr2_get (fNorms s') 0 =
    edge_normal (normSide_of dir) (endPt (seg_at segments (prev_index n k)))
                (arr2_get (fPts s) 0) /\
  arr2_get (fNorms s') 1 =
    match fType s with
    | Segment_kQuad =>
        edge_normal (normSide_of dir) (arr2_get (fPts s) 0)
                    (arr2_get (fPts s) 1)
    | Segment_kLine => arr2_get (fNorms s) 1
    end /\
  fMid s' =
    normalize (pt_add (arr2_get (fNorms s') 0)
                      (endNorm (seg_at out (prev_index n k)))).
Proof.
  intros Hk. cbv zeta.
  pose proof (compute_vectors_shape segments dir) as Hsh.
  pose proof (shape_seg_at _ _ k Hsh) as Hshk.
  pose proof (compute_vectors_length segments dir) as Hlen.
  split; [done|]. split; [by apply shape_fType|].
  split; [unfold shape in Hshk; congruence|].
  rewrite compute_vectors_mid, compute_vectors_norms by done.
  unfold expected_norms, expected_mid. rewrite Hlen.
  rewrite compute_vectors_norms by done. unfold expected_norms.
  by destruct (fType (seg_at segments k)).
Qed.

(** ** Indices and the 16-bit conversion *)

Lemma group_indices_raw segments a v :
  group_indices segments a v = map to_uint16 (raw_group_indices segments a v).
Proof.
  unfold group_indices, raw_group_indices. rewrite map_app.
  by destruct (fType (seg_at segments _)).
Qed.

Lemma mesh_indices_raw segments n a v :
  mesh_indices segments n a v = map to_uint16 (raw_mesh_indices segments n a v).
Proof.
  revert a v. induction n as [|n IH]; intros a v; [done|].
  cbn [mesh_indices raw_mesh_indices]. cbv zeta.
  by rewrite map_app, group_indices_raw, IH.
Qed.

Lemma raw_group_indices_bound segments a v :
  Forall (fun x => x < v + (4 + edge_vertices
            (fType (seg_at segments ((a + 1) `mod` length segments)))))
         (raw_group_indices segments a v).
Proof.
  unfold raw_group_indices.
  destruct (fType (seg_at segments _)); cbn;
    repeat (apply Forall_cons; split; [lia|]); apply Forall_nil_2.
Qed.

Lemma raw_mesh_indices_bound segments n a v :
  Forall (fun x => x < v + (4 * n + edge_sizes edge_vertices segments n a))
         (raw_mesh_indices segments n a v).
Proof.
  revert a v. induction n as [|n IH]; intros a v; [apply Forall_nil_2|].
  cbn [raw_mesh_indices edge_sizes]. cbv zeta. apply Forall_app. split.
  - eapply Forall_impl; [apply raw_group_indices_bound|].
    cbn beta. intros x Hx. lia.
  - eapply Forall_impl; [apply IH|]. cbn beta. intros x Hx. lia.
Qed.

(** The last vertex of a mesh is referred to by some index. *)
Lemma raw_mesh_indices_last segments n a v :
  v + (4 * S n + edge_sizes edge_vertices segments (S n) a) - 1
    ∈ raw_mesh_indices segments (S n) a v.
Proof.
  revert a v. induction n as [|n IH]; intros a v.
  - cbn [raw_mesh_indices edge_sizes]. cbv zeta. rewrite app_nil_r.
    unfold raw_group_indices. apply elem_of_app. right.
    destruct (fType (seg_at segments _)); cbn [edge_vertices map].
    + replace (v + (4 * 1 + (5 + 0)) - 1) with (v + 4 + 4) by lia.
      apply list_elem_of_In. cbn. do 6 right. by left.
    + replace (v + (4 * 1 + (6 + 0)) - 1) with (v + 4 + 5) by lia.
      apply list_elem_of_In. cbn. do 6 right. by left.
  - remember (S n) as m eqn:Hm.
    cbn [raw_mesh_indices edge_sizes]. cbv zeta. apply elem_of_app. right.
    subst m.
    match goal with
    | |- _ ∈ raw_mesh_indices _ _ ?a' ?v' =>
        pose proof (IH a' v') as H
    end.
    match goal with
    | H : ?x ∈ _ |- ?y ∈ _ => replace y with x by lia
    end.
    done.
Qed.

Lemma fmap_Some_inj {A} (l1 l2 : list A) :
  Some <$> l1 = Some <$> l2 -> l1 = l2.
Proof.
  revert l2. induction l1 as [|x l1 IH]; intros [|y l2] H; try done.
  cbn in H. injection H as -> H. f_equal. by apply IH.
Qed.

Lemma map_fixes {A} (f : A -> A) (l : list A) :
  Forall (fun x => f x = x) l -> map f l = l.
Proof. induction 1 as [|x l Hx _ IH]; [done|]. cbn. by rewrite Hx, IH. Qed.

(** X12.  The indices [create_vertices] stores are the numbers of the
    vertices they were computed for exactly when the mesh has at most 2^16
    vertices; in a larger mesh the conversion to 16 bits changes at least
    the index that refers to the last vertex. *)
Theorem indices_exact_iff_at_most_65536
    (segments : list Segment) (dir : Direction) :
  let vecs := compute_vectors segments dir in
  exists c,
    create_vertices (vec_segments vecs) (vec_fanPt vecs)
                    (reserved (vec_vCount vecs)) (reserved (vec_iCount vecs))
      = Some c /\
    (cells (idxs c) =
       Some <$> raw_mesh_indices (vec_segments vecs) (length segments) 0 0
     <-> vec_vCount vecs <= 2 ^ 16).
Proof.
  intros vecs.
  destruct (create_vertices_mesh segments dir)
    as (c & Hc & (_ & _ & (Hci & _) & _) & Hlv & _).
  fold vecs in Hc, Hci, Hlv.
  exists c. split; [done|].
  rewrite Hci, app_nil_r, mesh_indices_raw.
  rewrite mesh_vertices_length in Hlv.
  pose proof (raw_mesh_indices_bound (vec_segments vecs)
                                     (length segments) 0 0) as Hb.
  rewrite Hlv in Hb. cbn [Nat.add] in Hb.
  assert (2 ^ 16 <> 0) as HM by (apply Nat.pow_nonzero; lia).
  set (M := 2 ^ 16) in *.
  split.
  - intros Heq%fmap_Some_inj.
    destruct (le_lt_dec (vec_vCount vecs) M) as [|Hgt]; [done|exfalso].
    destruct (length segments) as [|n] eqn:Hn; [cbn in Hlv; lia|].
    pose proof (raw_mesh_indices_last (vec_segments vecs) n 0 0) as Hin.
    rewrite Hlv in Hin. cbn [Nat.add] in Hin.
    apply list_elem_of_lookup in Hin as [j Hj].
    assert (map to_uint16 (raw_mesh_indices (vec_segments vecs) (S n) 0 0)
              !! j = Some (to_uint16 (vec_vCount vecs - 1))) as Hj'.
    { by rewrite list_lookup_fmap, Hj. }
    rewrite Heq, Hj in Hj'. injection Hj' as Hj'.
    pose proof (Nat.mod_upper_bound (vec_vCount vecs - 1) M HM) as Hlt.
    unfold to_uint16 in Hj'. fold M in Hj'. lia.
  - intros Hle. f_equal. apply map_fixes.
    eapply Forall_impl; [exact Hb|]. cbn beta. intros x Hx.
    unfold to_uint16. fold M. apply Nat.mod_small. lia.
Qed.

(** ** Shared positions *)

Lemma mesh_vertices_split segments fanPt n1 n2 a :
  mesh_vertices segments fanPt (n1 + n2) a =
  mesh_vertices segments fanPt n1 a ++
  mesh_vertices segments fanPt n2 (a + n1).
Proof.
  revert a. induction n1 as [|n1 IH]; intros a.
  - cbn. by rewrite Nat.add_0_r.
  - cbn [Nat.add mesh_vertices]. rewrite IH, <- app_assoc.
    by replace (a + 1 + n1) with (a + S n1) by lia.
Qed.

Lemma mesh_vertices_lookup segments fanPt n a j :
  a < n ->
  j < length (group_vertices segments fanPt a) ->
  mesh_vertices segments fanPt n 0 !! (group_start segments a + j) =
  group_vertices segments fanPt a !! j.
Proof.
  intros Ha Hj.
  replace n with (a + S (n - a - 1)) by lia.
  rewrite mesh_vertices_split. cbn [Nat.add mesh_vertices].
  rewrite lookup_app_r
    by (rewrite mesh_vertices_length; unfold group_start; lia).
  rewrite mesh_vertices_length. unfold group_start.
  replace (4 * a + edge_sizes edge_vertices segments a 0 + j
           - (4 * a + edge_sizes edge_vertices segments a 0)) with j by lia.
  by rewrite lookup_app_l.
Qed.

Lemma position_at_mesh c segments fanPt n a j :
  cells (verts c) = Some <$> mesh_vertices segments fanPt n 0 ->
  a < n ->
  j < length (group_vertices segments fanPt a) ->
  position_at c (group_start segments a + j) =
  fPos <$> group_vertices segments fanPt a !! j.
Proof.
  intros Hc Ha Hj. unfold position_at.
  rewrite Hc, list_lookup_fmap, mesh_vertices_lookup by done.
  by destruct (group_vertices segments fanPt a !! j).
Qed.

(** X13.  In the mesh [create_vertices] writes, the parts that meet share
    their positions exactly.  In every group the corner vertex and the first
    end point of the edge are the end point of the segment before, and the
    last offset vertex of the wedge and the first offset vertex of the edge
    are that end point moved by the edge's first normal; the second end
    point and the second offset vertex of the edge are the corner vertex and
    the first offset vertex of the next group's wedge. *)
Theorem mesh_parts_share_positions
    (segments : list Segment) (dir : Direction) :
  let vecs := compute_vectors segments dir in
  let segs := vec_segments vecs in
  let n := length segments in
  exists c,
    create_vertices segs (vec_fanPt vecs)
                    (reserved (vec_vCount vecs)) (reserved (vec_iCount vecs))
      = Some c /\
    forall a, a < n ->
      let sega := seg_at segs a in
      let segb := seg_at segs ((a + 1) `mod` n) in
      let g := group_start segs a in
      let g' := group_start segs ((a + 1) `mod` n) in
      let start_offset := pt_add (endPt sega) (arr2_get (fNorms segb) 0) in
      let end_offset := pt_add (endPt segb) (endNorm segb) in
      position_at c (g + 0) = Some (endPt sega) /\
      position_at c (g + 5) = Some (endPt sega) /\
      position_at c (g + 3) = Some start_offset /\
      position_at c (g + 7) = Some start_offset /\
      position_at c (g + 6) = Some (endPt segb) /\
      position_at c (g' + 0) = Some (endPt segb) /\
      position_at c (g + 8) = Some end_offset /\
      position_at c (g' + 1) = Some end_offset.
Proof.
  intros vecs segs n.
  destruct (create_vertices_mesh segments dir)
    as (c & Hc & ((Hcv & _) & _) & _).
  fold vecs in Hc, Hcv. fold segs in Hc, Hcv. fold n in Hcv.
  rewrite app_nil_r in Hcv.
  exists c. split; [done|]. intros a Ha. cbv zeta.
  assert (length segs = n) as Hlen by apply compute_vectors_length.
  assert ((a + 1) `mod` n < n) as Hb by (apply Nat.mod_upper_bound; lia).
  pose proof (group_vertices_length segs (vec_fanPt vecs) a) as Hga.
  pose proof (group_vertices_length segs (vec_fanPt vecs) ((a + 1) `mod` n))
    as Hgb.
  assert (forall t, 9 <= 4 + edge_vertices t) as Hev by (intros []; cbn; lia).
  pose proof (Hev (fType (seg_at segs ((a + 1) `mod` length segs)))) as H1.
  pose proof (Hev (fType (seg_at segs (((a + 1) `mod` n + 1)
                                         `mod` length segs)))) as H2.
  rewrite !(position_at_mesh c segs (vec_fanPt vecs) n) by (done || lia).
  unfold group_vertices. rewrite Hlen.
  set (segb := seg_at segs ((a + 1) `mod` n)).
  assert (endPt segb = arr2_get (fPts segb)
                         (match fType segb with
                          | Segment_kLine => 0 | Segment_kQuad => 1 end) /\
          endNorm segb = arr2_get (fNorms segb)
                           (match fType segb with
                            | Segment_kLine => 0 | Segment_kQuad => 1 end))
    as [He Hn] by (unfold endPt, endNorm; by destruct (fType segb)).
  rewrite He, Hn.
  destruct (fType segb) eqn:Ht; repeat split; try done;
    cbn; unfold endPt, endNorm; by rewrite Ht.
Qed.

(** ** The draw entry point *)

Lemma get_segments_Some path vecs :
  get_segments path = Some vecs ->
  vecs = compute_vectors (path_segments (iter path))
                         (cheapComputeDirection path).
Proof.
  unfold get_segments. destruct (isDegenerate _); [done|].
  intros [= <-]. by rewrite decode_segments_from.
Qed.

(** X9.  When the path is neither empty nor degenerate and both
    reservations succeed, [drawPath] ends with the two reservations, the
    choice of the quadratic edge type, one indexed draw of vCount vertices
    and iCount indices from vertex and index zero, and the restoration of
    the draw state; at the draw both regions are written in full, group
    after group, and nothing is released. *)
Theorem drawPath_submits_the_mesh
    (r : GrAAConvexPathRenderer) (stageMask : Z) (vecs : Vectors) :
  isEmpty (fPath r) = false ->
  get_segments (device_path r) = Some vecs ->
  reserveVertexSpace (fTarget r) (layout_of stageMask) (vec_vCount vecs)
    = true ->
  reserveIndexSpace (fTarget r) (vec_iCount vecs) = true ->
  let n := length (vec_segments vecs) in
  let vertices := mesh_vertices (vec_segments vecs) (vec_fanPt vecs) n 0 in
  let indices := mesh_indices (vec_segments vecs) n 0 0 in
  length vertices = vec_vCount vecs /\
  length indices = vec_iCount vecs /\
  exists pre,
    forallb is_state_call pre = true /\
    drawPath r stageMask =
      Some (pre ++
            [Call_reserveVertexSpace (layout_of stageMask) (vec_vCount vecs);
             Call_reserveIndexSpace (vec_iCount vecs);
             Call_setVertexEdgeType_kQuad;
             Call_drawIndexed 0 0 (vec_vCount vecs) (vec_iCount vecs)
                              (Some <$> vertices) (Some <$> indices);
             Call_AutoStateRestore_restore]).
Proof.
  intros Hne Hsegs Hv Hi. cbv zeta.
  pose proof (get_segments_Some _ _ Hsegs) as Hvecs.
  destruct (create_vertices_mesh (path_segments (iter (device_path r)))
              (cheapComputeDirection (device_path r)))
    as (c & Hc & ((Hcv & _) & _ & (Hci & _) & _) & Hlv & Hli).
  rewrite <- Hvecs in Hc, Hcv, Hci, Hlv, Hli.
  rewrite app_nil_r in Hcv, Hci.
  assert (length (vec_segments vecs) =
          length (path_segments (iter (device_path r)))) as ->.
  { rewrite Hvecs. apply compute_vectors_length. }
  split; [done|]. split; [done|].
  unfold drawPath. rewrite Hne. cbv zeta.
  fold (device_path r). rewrite Hsegs. fold (layout_of stageMask).
  rewrite Hv, Hi. cbn [negb]. cbv iota. rewrite Hc. cbn [mbind option_bind].
  rewrite Hcv, Hci.
  eexists. split; [apply prologue_state_calls|].
  by rewrite <- !app_assoc.
Qed.

Lemma prologue_shape (m : Z) (o : option GrMatrix) :
  exists mid,
    match o with
    | Some ivm =>
        [Call_AutoStateRestore_set] ++ [Call_preConcatSamplerMatrices m ivm]
    | None => [Call_AutoStateRestore_set]
    end ++ [Call_setViewMatrix GrMatrix_I]
    = Call_AutoStateRestore_set :: mid /\
    forallb (fun c => negb (is_save_or_restore c)) mid = true /\
    In (Call_setViewMatrix GrMatrix_I) mid /\
    List.filter is_draw_call mid = [].
Proof.
  destruct o; eexists; (split; [reflexivity|]); cbn; auto.
Qed.

Lemma balanced_intro (mid body : list TargetCall) :
  forallb (fun c => negb (is_save_or_restore c)) mid = true ->
  In (Call_setViewMatrix GrMatrix_I) mid ->
  List.filter is_draw_call mid = [] ->
  forallb (fun c => negb (is_save_or_restore c)) body = true ->
  length (List.filter is_draw_call body) <= 1 ->
  exists mid',
    (Call_AutoStateRestore_set :: mid) ++ body
      ++ [Call_AutoStateRestore_restore]
    = Call_AutoStateRestore_set :: mid' ++ [Call_AutoStateRestore_restore] /\
    forallb (fun c => negb (is_save_or_restore c)) mid' = true /\
    In (Call_setViewMatrix GrMatrix_I) mid' /\
    length (List.filter is_draw_call mid') <= 1.
Proof.
  intros H1 H2 H3 H4 H5. exists (mid ++ body).
  split; [by rewrite <- app_assoc|].
  split; [by rewrite forallb_app, H1, H4|].
  split; [apply in_or_app; by left|].
  by rewrite List.filter_app, H3.
Qed.

(** X10.  [drawPath] makes no call at all for an empty path.  For every
    other path its calls begin with saving the draw state and end with
    restoring it, with no second save or restore in between; the view matrix
    is set to the identity in between, and at most one draw is submitted. *)
Theorem drawPath_saves_and_restores
    (r : GrAAConvexPathRenderer) (stageMask : Z) :
  exists calls,
    drawPath r stageMask = Some calls /\
    if isEmpty (fPath r) then calls = []
    else
      exists mid,
        calls = Call_AutoStateRestore_set :: mid
                  ++ [Call_AutoStateRestore_restore] /\
        forallb (fun c => negb (is_save_or_restore c)) mid = true /\
        In (Call_setViewMatrix GrMatrix_I) mid /\
        length (List.filter is_draw_call mid) <= 1.
Proof.
  unfold drawPath. destruct (isEmpty (fPath r)); [by exists []|]. cbv zeta.
  destruct (prologue_shape stageMask
              (invert (postTranslate (getViewMatrix (fTarget r))
                                     (fX (fTranslate r))
                                     (fY (fTranslate r)))))
    as (mid & -> & Hm1 & Hm2 & Hm3).
  unfold get_segments.
  destruct (isDegenerate _).
  { eexists. split; [reflexivity|].
    destruct (balanced_intro mid [] Hm1 Hm2 Hm3 eq_refl) as (m & Hm & ?);
      [cbn; lia|].
    exists m. by rewrite <- Hm. }
  destruct (negb (reserveVertexSpace _ _ _)).
  { eexists. split; [reflexivity|].
    match goal with
    | |- context [Call_reserveVertexSpace ?l ?n] =>
        destruct (balanced_intro mid [Call_reserveVertexSpace l n]
                    Hm1 Hm2 Hm3 eq_refl) as (m & Hm & ?); [cbn; lia|]
    end.
    exists m. rewrite <- Hm. by rewrite <- !app_assoc. }
  destruct (negb (reserveIndexSpace _ _)).
  { eexists. split; [reflexivity|].
    match goal with
    | |- context [Call_reserveVertexSpace ?l ?n] =>
      match goal with
      | |- context [Call_reserveIndexSpace ?k] =>
        destruct (balanced_intro mid
                    [Call_reserveVertexSpace l n; Call_reserveIndexSpace k;
                     Call_resetVertexSource]
                    Hm1 Hm2 Hm3 eq_refl) as (m & Hm & ?); [cbn; lia|]
      end
    end.
    exists m. rewrite <- Hm. by rewrite <- !app_assoc. }
  match goal with
  | |- context [compute_vectors ?s ?d] =>
      destruct (create_vertices_mesh s d) as (c & Hc & _)
  end.
  cbv zeta in Hc. rewrite Hc. cbn [mbind option_bind].
  eexists. split; [reflexivity|].
  match goal with
  | |- context [Call_reserveVertexSpace ?l ?n] =>
    match goal with
    | |- context [Call_reserveIndexSpace ?k] =>
      destruct (balanced_intro mid
                  [Call_reserveVertexSpace l n; Call_reserveIndexSpace k;
                   Call_setVertexEdgeType_kQuad;
                   Call_drawIndexed 0 0 n k (cells (verts c)) (cells (idxs c))]
                  Hm1 Hm2 Hm3 eq_refl) as (m & Hm & ?); [cbn; lia|]
    end
  end.
  exists m. rewrite <- Hm. by rewrite <- !app_assoc.
Qed.

(** ** The vertex layout *)

Lemma stage_bit_test (s : nat) (stageMask : Z) :
  Z.eqb (Z.land (Z.shiftl 1 (Z.of_nat s)) stageMask) 0 =
  negb (Z.testbit stageMask (Z.of_nat s)).
Proof.
  rewrite Z.shiftl_1_l.
  destruct (Z.testbit stageMask (Z.of_nat s)) eqn:Hb; cbn [negb].
  - apply Z.eqb_neq. intros H0.
    assert (Z.testbit (Z.land (2 ^ Z.of_nat s) stageMask) (Z.of_nat s)
            = true) as Ht.
    { rewrite Z.land_spec, Hb, Z.pow2_bits_true by lia. done. }
    rewrite H0, Z.bits_0 in Ht. done.
  - apply Z.eqb_eq. apply Z.bits_inj'. intros i Hi.
    rewrite Z.land_spec, Z.bits_0, Z.pow2_bits_eqb by lia.
    destruct (Z.eqb_spec (Z.of_nat s) i) as [<-|]; [by rewrite Hb|done].
Qed.

Lemma stage_layout_bits n s stageMask layout i :
  Z.testbit (stage_layout n s stageMask layout) i =
  Z.testbit layout i ||
  existsb (fun s => Z.testbit stageMask (Z.of_nat s) &&
                    Z.testbit (StagePosAsTexCoordVertexLayoutBit s) i)
          (seq s n).
Proof.
  revert s layout. induction n as [|n IH]; intros s layout.
  - cbn. by rewrite orb_false_r.
  - cbn [stage_layout seq existsb]. rewrite IH, stage_bit_test.
    replace (s + 1) with (S s) by lia.
    destruct (Z.testbit stageMask (Z.of_nat s)); cbn [negb andb orb].
    + by rewrite Z.lor_spec, orb_assoc.
    + done.
Qed.

(** X11.  The vertex layout [drawPath] asks for has, bit by bit, the edge
    bit and the position-as-texture-coordinate bits of exactly the stages
    below [kNumStages] whose bit is set in the stage mask; bits of the mask
    from [kNumStages] on have no effect. *)
Theorem layout_has_selected_stage_bits (stageMask i : Z) :
  Z.testbit (layout_of stageMask) i = layout_bit stageMask i.
Proof.
  unfold layout_of, layout_bit.
  by rewrite Z.lor_spec, stage_layout_bits, Z.bits_0.
Qed.

(** ** The fan point and the end points *)

(** X14.  The fan point depends on the end points of the segments only:
    segment arrays with the same end points, in the same order, have the
    same centre of mass, whatever their types, control points, normals and
    bisectors are. *)
Theorem center_of_mass_of_end_points (segments segments' : list Segment) :
  map endPt segments = map endPt segments' ->
  center_of_mass segments = center_of_mass segments'.
Proof.
  intros H.
  assert (length segments = length segments') as Hl.
  { by rewrite <- (length_map endPt segments), H, length_map. }
  unfold center_of_mass.
  rewrite !center_of_mass_sum_fold, !center_of_mass_avg_fold by lia.
  by rewrite H, Hl.
Qed.
End Further.

(** ** Triangles stay within their group *)

Section Triangles.
Context {Sc : Scalar} {Ext : Externals Sc}.

Lemma edge_sizes_app f (segments : list Segment) n1 n2 a :
  edge_sizes f segments (n1 + n2) a =
  edge_sizes f segments n1 a + edge_sizes f segments n2 (a + n1).
Proof.
  revert a. induction n1 as [|n1 IH]; intros a.
  - cbn. by rewrite Nat.add_0_r.
  - cbn [Nat.add edge_sizes]. rewrite IH.
    replace (a + 1 + n1) with (a + S n1) by lia. lia.
Qed.

Lemma raw_group_indices_length segments a v :
  length (raw_group_indices segments a v) =
  6 + edge_indices
        (fType (seg_at segments ((a + 1) `mod` length segments))).
Proof.
  unfold raw_group_indices. rewrite length_app.
  by destruct (fType (seg_at segments _)).
Qed.

Lemma raw_mesh_indices_length segments n a v :
  length (raw_mesh_indices segments n a v) =
  6 * n + edge_sizes edge_indices segments n a.
Proof.
  revert a v. induction n as [|n IH]; intros a v; [done|].
  cbn [raw_mesh_indices edge_sizes]. cbv zeta.
  rewrite length_app, raw_group_indices_length, IH. lia.
Qed.

Lemma raw_mesh_indices_split segments n1 n2 a v :
  raw_mesh_indices segments (n1 + n2) a v =
  raw_mesh_indices segments n1 a v ++
  raw_mesh_indices segments n2 (a + n1)
    (v + (4 * n1 + edge_sizes edge_vertices segments n1 a)).
Proof.
  revert a v. induction n1 as [|n1 IH]; intros a v.
  - cbn. by rewrite !Nat.add_0_r.
  - cbn [Nat.add raw_mesh_indices edge_sizes]. cbv zeta.
    rewrite IH, <- app_assoc. do 2 f_equal.
    replace (a + 1 + n1) with (a + S n1) by lia. f_equal. lia.
Qed.

Lemma raw_mesh_indices_lookup segments n a j :
  a < n ->
  j < length (raw_group_indices segments a (group_start segments a)) ->
  raw_mesh_indices segments n 0 0 !! (index_start segments a + j) =
  raw_group_indices segments a (group_start segments a) !! j.
Proof.
  intros Ha Hj.
  replace n with (a + S (n - a - 1)) by lia.
  rewrite raw_mesh_indices_split. cbn [Nat.add raw_mesh_indices]. cbv zeta.
  fold (group_start segments a).
  rewrite lookup_app_r
    by (rewrite raw_mesh_indices_length; unfold index_start; lia).
  rewrite raw_mesh_indices_length. unfold index_start.
  replace (6 * a + edge_sizes edge_indices segments a 0 + j
           - (6 * a + edge_sizes edge_indices segments a 0)) with j by lia.
  by rewrite lookup_app_l.
Qed.

Lemma edge_indices_sum_divisible (segments : list Segment) n a :
  (3 | edge_sizes edge_indices segments n a).
Proof.
  revert a. induction n as [|n IH]; intros a.
  - exists 0. done.
  - cbn [edge_sizes]. apply Nat.divide_add_r; [|apply IH].
    destruct (fType (seg_at segments _)); [by exists 3|by exists 4].
Qed.

(** X15.  The index region is a list of triangles that never straddle two
    groups: the indices of every group begin at a multiple of three, the six
    indices of its wedge are the 16-bit conversions of numbers of its four
    wedge vertices, and the indices of its edge are the conversions of
    numbers of the vertices of that edge. *)
Theorem triangles_stay_within_groups
    (segments : list Segment) (dir : Direction) :
  let vecs := compute_vectors segments dir in
  let segs := vec_segments vecs in
  exists c,
    create_vertices segs (vec_fanPt vecs)
                    (reserved (vec_vCount vecs)) (reserved (vec_iCount vecs))
      = Some c /\
    (3 | vec_iCount vecs) /\
    forall a, a < length segments ->
      let g := group_start segs a in
      let size := 4 + edge_vertices
                       (fType (seg_at segs ((a + 1) `mod` length segs))) in
      (3 | index_start segs a) /\
      forall j x,
        raw_group_indices segs a g !! j = Some x ->
        cells (idxs c) !! (index_start segs a + j)
          = Some (Some (to_uint16 x)) /\
        (j < 6 -> g <= x < g + 4) /\
        (6 <= j -> g + 4 <= x < g + size).
Proof.
  intros vecs segs.
  destruct (create_vertices_mesh segments dir)
    as (c & Hc & (_ & _ & (Hci & _) & _) & _ & Hli).
  fold vecs in Hc, Hci, Hli. fold segs in Hc, Hci, Hli.
  rewrite app_nil_r in Hci.
  exists c. split; [done|]. split.
  { rewrite <- Hli, mesh_indices_length.
    apply Nat.divide_add_r; [|apply edge_indices_sum_divisible].
    exists (2 * length segments). lia. }
  intros a Ha. cbv zeta. split.
  { unfold index_start.
    apply Nat.divide_add_r; [|apply edge_indices_sum_divisible].
    exists (2 * a). lia. }
  intros j x Hx. split.
  - rewrite Hci, mesh_indices_raw, !list_lookup_fmap.
    rewrite raw_mesh_indices_lookup;
      [by rewrite Hx|done|by apply lookup_lt_Some in Hx].
  - unfold raw_group_indices in Hx.
    set (g := group_start segs a) in *. clearbody g.
    destruct (fType (seg_at segs ((a + 1) `mod` length segs)));
      cbn [map app edge_vertices] in *;
      do 19 (destruct j as [|j]; cbn in Hx;
             [first [done | injection Hx as <-; lia]|]);
      done.
Qed.
End Triangles.

(** ** Further scenarios in single precision *)

(** X6 at the rounded path: two lines and one quadratic. *)
Lemma rounded_mesh_size :
  let vecs := compute_vectors (path_segments (iter rounded))
                              kCCW_Direction in
  length (vec_segments vecs) = 2 + 1 /\
  vec_vCount vecs = 9 * 2 + 10 * 1 /\
  vec_iCount vecs = 15 * 2 + 18 * 1.
Proof.
  intros vecs. apply (path_mesh_size rounded vecs). reflexivity.
Defined.

(** X7 at the first segment of the unit square. *)
Lemma unit_square_closed_form :
  let out := vec_segments
               (compute_vectors unit_square_segments kCCW_Direction) in
  let s := seg_at unit_square_segments 0 in
  let s' := seg_at out 0 in
  length out = 4 /\
  fType s' = fType s /\
  fPts s' = fPts s /\
  arr2_get (fNorms s') 0 =
    edge_normal kRight_Side (endPt (seg_at unit_square_segments 3))
                (arr2_get (fPts s) 0) /\
  arr2_get (fNorms s') 1 = arr2_get (fNorms s) 1 /\
  fMid s' =
    normalize (pt_add (arr2_get (fNorms s') 0) (endNorm (seg_at out 3))).
Proof.
  intros out s s'.
  apply (compute_vectors_closed_form unit_square_segments kCCW_Direction 0).
  vm_compute. lia.
Defined.

(** X9 at the unit square drawn to a target that grants every
    reservation. *)
Lemma unit_square_is_submitted :
  let r := renderer (unit_square kCCW_Direction) generous in
  let vecs := compute_vectors unit_square_segments kCCW_Direction in
  let vertices := mesh_vertices (vec_segments vecs) (vec_fanPt vecs) 4 0 in
  let indices := mesh_indices (vec_segments vecs) 4 0 0 in
  length vertices = 36 /\
  length indices = 60 /\
  exists pre,
    forallb is_state_call pre = true /\
    drawPath r 0 =
      Some (pre ++
            [Call_reserveVertexSpace (layout_of 0) 36;
             Call_reserveIndexSpace 60;
             Call_setVertexEdgeType_kQuad;
             Call_drawIndexed 0 0 36 60 (Some <$> vertices) (Some <$> indices);
             Call_AutoStateRestore_restore]).
Proof.
  intros r vecs vertices indices.
  apply (drawPath_submits_the_mesh r 0 vecs); reflexivity.
Defined.

(** X14 at the unit square with its first side replaced by a quadratic to
    the same end point. *)
Lemma curved_side_keeps_the_centre :
  center_of_mass
    (quad_segment (pt 5 5) (pt 1 0) :: tail unit_square_segments) =
  center_of_mass unit_square_segments.
Proof.
  apply center_of_mass_of_end_points. reflexivity.
Defined.
